(** * Viewport and Projection of the math package: a shallow embedding

    The two classes of [packages/math/src/Viewport.ts] and
    [packages/math/src/projection.ts] are embedded as Rocq functions.

    Numbers.  A JavaScript [number] is modelled by the type [number] below:
    a finite value carries an exact real, and the three non-finite values
    [Infinity], [-Infinity] and [NaN] are kept apart.  Arithmetic on finite
    values is exact: no rounding, no overflow, no signed zero.  The special
    cases of the operators and of the [Math] functions follow ECMAScript
    (division by zero, logarithm of zero, [Math.min] on [NaN], ...).

    Objects.  The [Transform] object held by a [Viewport] lives in a heap
    of objects and is named by a reference, so that handing out a copy and
    handing out the object itself are different things.  Arrays of two
    numbers ([Vec2]) are immutable in all the code embedded here and are
    modelled as pairs. *)

From Stdlib Require Import Reals Lra Lia List ZArith Bool Zfloor RNsatz Factorial.
Import ListNotations.

Set Implicit Arguments.

Local Open Scope R_scope.

(* ================================================================= *)
(** ** JavaScript numbers *)

Module JS.

Inductive number : Type :=
| Fin (v : R)
| PInf
| NInf
| NaN.

Declare Scope js_scope.
Delimit Scope js_scope with js.
Bind Scope js_scope with number.

(** Sign of a real, as the three-way case analysis the special cases of
    multiplication and division need. *)
Inductive sign := Positive | Zero | Negative.

Definition sgn (v : R) : sign :=
  match total_order_T 0 v with
  | inleft (left _) => Positive
  | inleft (right _) => Zero
  | inright _ => Negative
  end.

(** [Infinity * v] for a finite [v]; [pos] tells the sign of the infinity. *)
Definition inf_times (pos : bool) (v : R) : number :=
  match sgn v with
  | Positive => if pos then PInf else NInf
  | Zero => NaN
  | Negative => if pos then NInf else PInf
  end.

Definition neg (a : number) : number :=
  match a with
  | Fin v => Fin (- v)
  | PInf => NInf
  | NInf => PInf
  | NaN => NaN
  end.

Definition add (a b : number) : number :=
  match a, b with
  | Fin v, Fin w => Fin (v + w)
  | NaN, _ | _, NaN => NaN
  | PInf, NInf | NInf, PInf => NaN
  | PInf, _ | _, PInf => PInf
  | NInf, _ | _, NInf => NInf
  end.

Definition sub (a b : number) : number := add a (neg b).

Definition mul (a b : number) : number :=
  match a, b with
  | Fin v, Fin w => Fin (v * w)
  | NaN, _ | _, NaN => NaN
  | PInf, Fin w | Fin w, PInf => inf_times true w
  | NInf, Fin w | Fin w, NInf => inf_times false w
  | PInf, PInf | NInf, NInf => PInf
  | PInf, NInf | NInf, PInf => NInf
  end.

(** Division.  A finite non-zero value over zero is an infinity of the sign
    of the numerator (the zero is taken as [+0]), and [0 / 0] is [NaN]. *)
Definition div (a b : number) : number :=
  match a, b with
  | Fin v, Fin w =>
      match Req_dec_T w 0 with
      | left _ => inf_times true v
      | right _ => Fin (v / w)
      end
  | NaN, _ | _, NaN => NaN
  | Fin _, (PInf | NInf) => Fin 0
  | PInf, Fin w => match sgn w with Negative => NInf | _ => PInf end
  | NInf, Fin w => match sgn w with Negative => PInf | _ => NInf end
  | (PInf | NInf), (PInf | NInf) => NaN
  end.

Notation "a + b" := (add a b) : js_scope.
Notation "a - b" := (sub a b) : js_scope.
Notation "a * b" := (mul a b) : js_scope.
Notation "a / b" := (div a b) : js_scope.
Notation "- a" := (neg a) : js_scope.

(** Truthiness of a number, as in [if (r)] and [v || d]: zero and [NaN]
    are falsy. *)
Definition truthy (a : number) : bool :=
  match a with
  | Fin v => if Req_dec_T v 0 then false else true
  | PInf | NInf => true
  | NaN => false
  end.

(** [a || d] where [a] may be [undefined]. *)
Definition or_default (a : option number) (d : number) : number :=
  match a with
  | Some v => if truthy v then v else d
  | None => d
  end.

Definition isFinite (a : number) : bool :=
  match a with Fin _ => true | _ => false end.

End JS.

(* ================================================================= *)
(** ** The [Math] object *)

Module Math.
Import JS.

Definition PI : number := Fin Rtrigo1.PI.

Definition min (a b : number) : number :=
  match a, b with
  | NaN, _ | _, NaN => NaN
  | Fin v, Fin w => Fin (Rmin v w)
  | NInf, _ | _, NInf => NInf
  | PInf, c | c, PInf => c
  end.

Definition max (a b : number) : number :=
  match a, b with
  | NaN, _ | _, NaN => NaN
  | Fin v, Fin w => Fin (Rmax v w)
  | PInf, _ | _, PInf => PInf
  | NInf, c | c, NInf => c
  end.

Definition abs (a : number) : number :=
  match a with
  | Fin v => Fin (Rabs v)
  | PInf | NInf => PInf
  | NaN => NaN
  end.

Definition ceil (a : number) : number :=
  match a with
  | Fin v => Fin (IZR (Zceil v))
  | other => other
  end.

Definition sin (a : number) : number :=
  match a with
  | Fin v => Fin (Rtrigo_def.sin v)
  | _ => NaN
  end.

Definition cos (a : number) : number :=
  match a with
  | Fin v => Fin (Rtrigo_def.cos v)
  | _ => NaN
  end.

(** The tangent is the quotient of sine by cosine: at a pole of the exact
    function the result is an infinity. *)
Definition tan (a : number) : number := (sin a / cos a)%js.

Definition atan (a : number) : number :=
  match a with
  | Fin v => Fin (Ratan.atan v)
  | PInf => Fin (Rtrigo1.PI / 2)
  | NInf => Fin (- (Rtrigo1.PI / 2))
  | NaN => NaN
  end.

Definition exp (a : number) : number :=
  match a with
  | Fin v => Fin (Rtrigo_def.exp v)
  | PInf => PInf
  | NInf => Fin 0
  | NaN => NaN
  end.

Definition log (a : number) : number :=
  match a with
  | Fin v =>
      match sgn v with
      | Positive => Fin (ln v)
      | Zero => NInf
      | Negative => NaN
      end
  | PInf => PInf
  | NInf | NaN => NaN
  end.

End Math.

(* ================================================================= *)
(** ** Constants ([constants.ts]) *)

Module Constants.
Import JS.

(** Modelled from the spec: [constants.ts] is not among the sources.  The
    spec fixes [TAU = 2pi], [HALF_PI = pi/2] and the two degree/radian
    factors. *)
Definition TAU : number := Fin (2 * PI).
Definition HALF_PI : number := Fin (PI / 2).
Definition DEG2RAD : number := Fin (PI / 180).
Definition RAD2DEG : number := Fin (180 / PI).

(** The zoom bounds and the latitude bounds are finite constants whose
    values the sources do not give: they are parameters of the
    development. *)
Class Bounds : Type := {
  min_k : R;
  max_k : R;
  min_phi : R;
  max_phi : R
}.

Definition MIN_K `{Bounds} : number := Fin min_k.
Definition MAX_K `{Bounds} : number := Fin max_k.
Definition MIN_PHI `{Bounds} : number := Fin min_phi.
Definition MAX_PHI `{Bounds} : number := Fin max_phi.

(** What the spec says of the bounds: the scale bounds are those of two
    zoom levels (positive, in order) and the latitude bounds lie strictly
    inside (-pi/2, pi/2). *)
Record BoundsOk (B : Bounds) : Prop := {
  min_k_pos : 0 < min_k;
  k_ordered : min_k <= max_k;
  min_phi_inside : - (PI / 2) < min_phi;
  phi_ordered : min_phi <= max_phi;
  max_phi_inside : max_phi < PI / 2
}.

(** The latitude bounds do not leave the square Mercator world, whose
    edges are at Mercator Y = +-pi. *)
Record BoundsSquare (B : Bounds) : Prop := {
  min_phi_square : 2 * atan (exp (- PI)) - PI / 2 <= min_phi;
  max_phi_square : max_phi <= 2 * atan (exp PI) - PI / 2
}.

(** Modelled from the spec: the values of the four bounds.  Zoom [z] has
    scale [256 * 2^z / TAU] (zoom 1 is [256/pi]); the scale is kept within
    zoom 0 .. zoom 24; the latitude bounds are the latitudes of the edges
    of the square Mercator world, about +-85.0511287798 degrees. *)
Definition geoZoomToScale (z : nat) : R := 256 * 2 ^ z / (2 * PI).

Definition spec_bounds : Bounds := {|
  min_k := geoZoomToScale 0;
  max_k := geoZoomToScale 24;
  min_phi := 2 * atan (exp (- PI)) - PI / 2;
  max_phi := 2 * atan (exp PI) - PI / 2
|}.

End Constants.

(* ================================================================= *)
(** ** Number helpers ([number.ts]) *)

Module Num.
Import JS.

(** Modelled from the spec: [number.ts] is not among the sources.
    [numClamp] bounds a value to [[min, max]]. *)
Definition numClamp (num min max : number) : number :=
  Math.max min (Math.min num max).

(** Modelled from the spec: [numWrap] maps a value into [[min, max)]
    modularly. *)
Definition numWrap (num min max : number) : number :=
  match num, min, max with
  | Fin v, Fin lo, Fin hi =>
      if Req_dec_T (hi - lo) 0 then NaN
      else Fin (v - (hi - lo) * IZR (Zfloor ((v - lo) / (hi - lo))))
  | _, _, _ => NaN
  end.

End Num.

(* ================================================================= *)
(** ** Vector helpers ([vector.ts]) *)

Module Vec.
Import JS.

Definition Vec2 : Type := (number * number)%type.

(** Modelled from the spec: [vector.ts] is not among the sources.
    [vecRotate] rotates a point about a centre by an angle in radians,
    [vecScale] scales both components, [vecCeil] rounds both components
    up, [vecSubtract] subtracts component-wise. *)
Definition vecRotate (a : Vec2) (angle : number) (around : Vec2) : Vec2 :=
  let dx := (fst a - fst around)%js in
  let dy := (snd a - snd around)%js in
  let c := Math.cos angle in
  let s := Math.sin angle in
  ((dx * c - dy * s + fst around)%js, (dx * s + dy * c + snd around)%js).

Definition vecScale (a : Vec2) (n : number) : Vec2 :=
  ((fst a * n)%js, (snd a * n)%js).

Definition vecCeil (a : Vec2) : Vec2 :=
  (Math.ceil (fst a), Math.ceil (snd a)).

Definition vecSubtract (a b : Vec2) : Vec2 :=
  ((fst a - fst b)%js, (snd a - snd b)%js).

End Vec.

(* ================================================================= *)
(** ** Bounding boxes ([Extent.ts]) *)

Module Extent.
Import JS Vec.

(** Modelled from the spec: [Extent.ts] is not among the sources.  An
    extent has a [min] and a [max] corner, can be built empty and is
    extended to include a point.  The empty extent has its corners at the
    opposite infinities, so that the first point included becomes both
    corners. *)
Record t : Type := { min : Vec2; max : Vec2 }.

Definition constructor : t :=
  {| min := (PInf, PInf); max := (NInf, NInf) |}.

Definition extendSelf (this : t) (point : Vec2) : t :=
  {| min := (Math.min (fst (min this)) (fst point),
             Math.min (snd (min this)) (snd point));
     max := (Math.max (fst (max this)) (fst point),
             Math.max (snd (max this)) (snd point)) |}.

End Extent.

(* ================================================================= *)
(** ** The heap of objects *)

Module Heap.

Definition ref : Type := nat.

(** Objects of type [A], each at its reference; [next] is the first
    reference not yet given out. *)
Record t (A : Type) : Type := { cells : ref -> A; next : ref }.

Definition get {A} (h : t A) (p : ref) : A := cells h p.

Definition set {A} (h : t A) (p : ref) (v : A) : t A :=
  {| cells := fun q => if Nat.eqb q p then v else cells h q;
     next := next h |}.

(** A new object: it gets the reference [next h]. *)
Definition alloc {A} (h : t A) (v : A) : ref * t A :=
  (next h,
   {| cells := fun q => if Nat.eqb q (next h) then v else cells h q;
      next := S (next h) |}).

Definition allocated {A} (h : t A) (p : ref) : Prop := (p < next h)%nat.

(** The heap before any object is made; [d] fills the cells not in use. *)
Definition empty {A} (d : A) : t A := {| cells := fun _ => d; next := 0%nat |}.

End Heap.

(* ================================================================= *)
(** ** [Viewport.ts] *)

Module Viewport.
Import JS Constants Num Vec.

(** The parameters that define the viewport. *)
Record Transform : Type := { x : number; y : number; k : number; r : number }.

(** The loosely typed argument of the constructor and of [transform]: an
    object on which each of the four fields may be absent. *)
Record TransformLike : Type := {
  obj_x : option number;
  obj_y : option number;
  obj_k : option number;
  obj_r : option number
}.

(** [transform?.f]: the field [f] of an argument that may itself be
    [undefined]. *)
Definition opt_field (transform : option TransformLike)
    (f : TransformLike -> option number) : option number :=
  match transform with
  | Some o => f o
  | None => None
  end.

(** Unary plus on a value that is a number already. *)
Definition uplus (a : number) : number := a.

(** A [Viewport] object: [_transform] is a reference to its [Transform]
    object in the heap, [_dimensions] a pair. *)
Record t : Type := { _transform : Heap.ref; _dimensions : Vec2 }.

Definition heap : Type := Heap.t Transform.

(** The result of an accessor: the value asked for, or [this] after the
    update. *)
Inductive GetSet (A : Type) : Type :=
| Got (v : A)
| This (this : t).
Arguments Got {A} v.
Arguments This {A} this.

Section WithBounds.
Context `{B : Bounds}.

Definition constructor (transform : option TransformLike)
    (dimensions : option Vec2) (h : heap) : t * heap :=
  let tr :=
    {| x := or_default (opt_field transform obj_x) (Fin 0);
       y := or_default (opt_field transform obj_y) (Fin 0);
       k := numClamp (or_default (opt_field transform obj_k)
                        (Fin 256 / Math.PI)%js) MIN_K MAX_K;
       r := numWrap (or_default (opt_field transform obj_r) (Fin 0))
              (Fin 0) TAU |} in
  let (p, h') := Heap.alloc h tr in
  ({| _transform := p;
      _dimensions := match dimensions with
                     | Some d => d
                     | None => (Fin 0, Fin 0)
                     end |}, h').

Definition project (this : t) (h : heap) (loc : Vec2)
    (includeRotation : bool) : Vec2 :=
  let tr := Heap.get h (_transform this) in
  let lambda := (fst loc * DEG2RAD)%js in
  let phi := numClamp (snd loc * DEG2RAD)%js MIN_PHI MAX_PHI in
  let mercatorX := lambda in
  let mercatorY := Math.log (Math.tan ((HALF_PI + phi) / Fin 2)%js) in
  let point : Vec2 :=
    ((mercatorX * k tr + x tr)%js, (y tr - mercatorY * k tr)%js) in
  if includeRotation && truthy (r tr) then
    let center := vecScale (_dimensions this) (Fin 0.5) in
    vecRotate point (r tr) center
  else point.

Definition unproject (this : t) (h : heap) (point : Vec2)
    (includeRotation : bool) : Vec2 :=
  let tr := Heap.get h (_transform this) in
  let point :=
    if includeRotation && truthy (r tr) then
      let center := vecScale (_dimensions this) (Fin 0.5) in
      vecRotate point (- r tr)%js center
    else point in
  let mercatorX := ((fst point - x tr) / k tr)%js in
  let mercatorY :=
    numClamp ((y tr - snd point) / k tr)%js (- Math.PI)%js Math.PI in
  let lambda := mercatorX in
  let phi := (Fin 2 * Math.atan (Math.exp mercatorY) - HALF_PI)%js in
  ((lambda * RAD2DEG)%js, (phi * RAD2DEG)%js).

Definition translate (this : t) (h : heap) (val : option Vec2)
    : GetSet Vec2 * heap :=
  match val with
  | None =>
      let tr := Heap.get h (_transform this) in (Got (x tr, y tr), h)
  | Some v =>
      let tr := Heap.get h (_transform this) in
      let tr1 := {| x := uplus (fst v); y := y tr; k := k tr; r := r tr |} in
      let tr2 :=
        {| x := x tr1; y := uplus (snd v); k := k tr1; r := r tr1 |} in
      (This this, Heap.set h (_transform this) tr2)
  end.

Definition scale (this : t) (h : heap) (val : option number)
    : GetSet number * heap :=
  match val with
  | None => (Got (k (Heap.get h (_transform this))), h)
  | Some v =>
      let tr := Heap.get h (_transform this) in
      (This this,
       Heap.set h (_transform this)
         {| x := x tr; y := y tr;
            k := numClamp (uplus v) MIN_K MAX_K; r := r tr |})
  end.

Definition rotate (this : t) (h : heap) (val : option number)
    : GetSet number * heap :=
  match val with
  | None => (Got (r (Heap.get h (_transform this))), h)
  | Some v =>
      let tr := Heap.get h (_transform this) in
      (This this,
       Heap.set h (_transform this)
         {| x := x tr; y := y tr; k := k tr;
            r := numWrap (uplus v) (Fin 0) TAU |})
  end.

(** One guarded field update of [transform]:
    [if (obj.f !== undefined) this._transform.f = g(+obj.f)]. *)
Definition update_field (h : heap) (p : Heap.ref) (field : option number)
    (write : Transform -> number -> Transform) : heap :=
  match field with
  | Some v => Heap.set h p (write (Heap.get h p) (uplus v))
  | None => h
  end.

(** [transform()] hands out a new object, a copy of the fields
    ([Object.assign ({}, this._transform)]); [transform (obj)] updates the
    viewport's own object field by field. *)
Definition transform (this : t) (h : heap) (obj : option TransformLike)
    : GetSet Heap.ref * heap :=
  match obj with
  | None =>
      let (p, h') := Heap.alloc h (Heap.get h (_transform this)) in
      (Got p, h')
  | Some o =>
      let p := _transform this in
      let h1 := update_field h p (obj_x o)
                  (fun tr v => {| x := v; y := y tr; k := k tr; r := r tr |}) in
      let h2 := update_field h1 p (obj_y o)
                  (fun tr v => {| x := x tr; y := v; k := k tr; r := r tr |}) in
      let h3 := update_field h2 p (obj_k o)
                  (fun tr v => {| x := x tr; y := y tr;
                                  k := numClamp v MIN_K MAX_K; r := r tr |}) in
      let h4 := update_field h3 p (obj_r o)
                  (fun tr v => {| x := x tr; y := y tr; k := k tr;
                                  r := numWrap v (Fin 0) TAU |}) in
      (This this, h4)
  end.

Definition dimensions (this : t) (h : heap) (val : option Vec2)
    : GetSet Vec2 * heap :=
  match val with
  | None => (Got (_dimensions this), h)
  | Some v =>
      (This {| _transform := _transform this;
               _dimensions := vecCeil (uplus (fst v), uplus (snd v)) |}, h)
  end.

Definition center (this : t) : Vec2 :=
  vecScale (_dimensions this) (Fin 0.5).

Definition visiblePolygon (this : t) (h : heap) : list Vec2 :=
  let (w, h_) := _dimensions this in
  let r := r (Heap.get h (_transform this)) in
  if truthy r then
    let sinr := Math.abs (Math.sin r) in
    let cosr := Math.abs (Math.cos r) in
    let ae := (w * sinr)%js in
    let af := (h_ * cosr)%js in
    let ex := (ae * sinr)%js in
    let ey := (ae * cosr)%js in
    let fx := (af * sinr)%js in
    let fy := (af * cosr)%js in
    let E : Vec2 := (ex, (- ey)%js) in
    let F : Vec2 := ((- fx)%js, fy) in
    let G : Vec2 := ((w - ex)%js, (h_ + ey)%js) in
    let H : Vec2 := ((w + fx)%js, (h_ - fy)%js) in
    [E; F; G; H; E]
  else
    [(Fin 0, Fin 0); (Fin 0, h_); (w, h_); (Fin 0, w); (Fin 0, Fin 0)].

Definition visibleDimensions (this : t) (h : heap) : Vec2 :=
  let (w, h_) := _dimensions this in
  let r := r (Heap.get h (_transform this)) in
  if truthy r then
    let sinr := Math.abs (Math.sin r) in
    let cosr := Math.abs (Math.cos r) in
    let w2 := (w * cosr + h_ * sinr)%js in
    let h2 := (h_ * cosr + w * sinr)%js in
    vecCeil (w2, h2)
  else (w, h_).

Definition visibleCenter (this : t) (h : heap) : Vec2 :=
  vecScale (visibleDimensions this h) (Fin 0.5).

(** The loop of [extent]: indices [0 .. polygon.length - 2], that is every
    vertex but the last. *)
Definition extent (this : t) (h : heap) : Extent.t :=
  let polygon := visiblePolygon this h in
  fold_left
    (fun extent point => Extent.extendSelf extent (unproject this h point true))
    (removelast polygon) Extent.constructor.

End WithBounds.

End Viewport.

(* ================================================================= *)
(** ** [projection.ts] *)

Module Projection.
Import JS Vec.

(** An object containing [x], [y], [k] numbers. *)
Record Transform : Type := { x : number; y : number; k : number }.

Record t : Type := {
  _k : number;
  _x : number;
  _y : number;
  _dimensions : list Vec2
}.

Inductive GetSet (A : Type) : Type :=
| Got (v : A)
| This (this : t).
Arguments Got {A} v.
Arguments This {A} this.

Definition constructor (x y k : option number) : t :=
  {| _x := or_default x (Fin 0);
     _y := or_default y (Fin 0);
     _k := or_default k (Fin 256 / Math.PI)%js;
     _dimensions := [(Fin 0, Fin 0); (Fin 0, Fin 0)] |}.

Definition project (this : t) (loc : Vec2) : Vec2 :=
  let lambda := ((fst loc * Math.PI) / Fin 180)%js in
  let phi := ((snd loc * Math.PI) / Fin 180)%js in
  let mercX := lambda in
  let mercY :=
    Math.log (Math.tan (((Math.PI / Fin 2) + phi) / Fin 2)%js) in
  ((mercX * _k this + _x this)%js, (_y this - mercY * _k this)%js).

Definition invert (this : t) (point : Vec2) : Vec2 :=
  let mercX := ((fst point - _x this) / _k this)%js in
  let mercY := ((_y this - snd point) / _k this)%js in
  let lambda := mercX in
  let phi :=
    (Fin 2 * Math.atan (Math.exp mercY) - (Math.PI / Fin 2))%js in
  (((lambda * Fin 180) / Math.PI)%js, ((phi * Fin 180) / Math.PI)%js).

Definition scale (this : t) (val : option number) : GetSet number :=
  match val with
  | None => Got (_k this)
  | Some v =>
      This {| _k := v; _x := _x this; _y := _y this;
              _dimensions := _dimensions this |}
  end.

Definition translate (this : t) (val : option Vec2) : GetSet Vec2 :=
  match val with
  | None => Got (_x this, _y this)
  | Some v =>
      This {| _k := _k this; _x := fst v; _y := snd v;
              _dimensions := _dimensions this |}
  end.

Definition dimensions (this : t) (val : option (list Vec2))
    : GetSet (list Vec2) :=
  match val with
  | None => Got (_dimensions this)
  | Some v =>
      This {| _k := _k this; _x := _x this; _y := _y this;
              _dimensions := v |}
  end.

Definition transform (this : t) (obj : option Transform)
    : GetSet Transform :=
  match obj with
  | None => Got {| x := _x this; y := _y this; k := _k this |}
  | Some o =>
      This {| _k := k o; _x := x o; _y := y o;
              _dimensions := _dimensions this |}
  end.

End Projection.

(* ================================================================= *)
(** ** Vocabulary of the statements *)

Module Spec.
Import JS Constants Num Vec.

(** A point with finite coordinates. *)
Definition fin2 (p : R * R) : Vec2 := (Fin (fst p), Fin (snd p)).

(** A [Transform] with finite fields. *)
Definition finT (tx ty tk tr : R) : Viewport.Transform :=
  {| Viewport.x := Fin tx; Viewport.y := Fin ty;
     Viewport.k := Fin tk; Viewport.r := Fin tr |}.

(** The [Transform] object of a viewport, read from the heap. *)
Definition stored (this : Viewport.t) (h : Viewport.heap)
    : Viewport.Transform :=
  Heap.get h (Viewport._transform this).

(** The invariant of the data model: finite fields, the scale within its
    bounds, the rotation in [[0, 2pi)]. *)
Inductive Valid `{B : Bounds} : Viewport.Transform -> Prop :=
| Valid_intro (tx ty tk tr : R) :
    min_k <= tk <= max_k -> 0 <= tr < 2 * PI -> Valid (finT tx ty tk tr).

(** The axis-aligned bounding box of a list of points, and the width and
    height of a box. *)
Definition boundingBox (points : list Vec2) : Extent.t :=
  fold_left Extent.extendSelf points Extent.constructor.

Definition boxDimensions (e : Extent.t) : Vec2 :=
  vecSubtract (Extent.max e) (Extent.min e).

(** Euclidean distance and dot product of plane vectors. *)
Definition dist (a b : R * R) : R :=
  sqrt ((fst a - fst b) * (fst a - fst b) + (snd a - snd b) * (snd a - snd b)).

Definition dot (a b : R * R) : R := fst a * fst b + snd a * snd b.

Definition vsub (a b : R * R) : R * R := (fst a - fst b, snd a - snd b).

(** The inverse Mercator latitude (in radians) of a Mercator Y. *)
Definition gd (my : R) : R := 2 * atan (exp my) - PI / 2.

(** The latitude in radians after the clamp of [project]. *)
Definition clampedPhi `{B : Bounds} (lat : R) : R :=
  Rmax min_phi (Rmin (lat * (PI / 180)) max_phi).

(** The rotation step shared by [project] and [unproject]: rotate about
    the centre of the screen when asked to and when the angle is not 0. *)
Definition rotateAbout (w h a : R) (incl : bool) (p : R * R) : R * R :=
  if incl && (if Req_dec_T a 0 then false else true) then
    ((fst p - w * 0.5) * cos a - (snd p - h * 0.5) * sin a + w * 0.5,
     (fst p - w * 0.5) * sin a + (snd p - h * 0.5) * cos a + h * 0.5)
  else p.

(** The latitude in degrees that [unproject] computes from a screen Y. *)
Definition unprojectLat (ty tk py : R) : R :=
  gd (Rmax (- PI) (Rmin ((ty - py) / tk) PI)) * (180 / PI).

(** The value of [numWrap v 0 TAU] on a finite [v]. *)
Definition wrapped (v : R) : R := v - 2 * PI * IZR (Zfloor (v / (2 * PI))).

(** The terms [t^i / i!] of the exponential series, each computed from
    the one before. *)
Fixpoint exp_term (t : R) (i : nat) : R :=
  match i with
  | O => 1
  | S j => exp_term t j * t / INR (S j)
  end.

(** An optional field that, when present, holds a finite number. *)
Definition finite_opt (f : option number) : Prop :=
  match f with
  | Some v => isFinite v = true
  | None => True
  end.

(** A legacy [Projection] with finite fields. *)
Definition finP (lx ly lk : R) (dims : list Vec2) : Projection.t :=
  {| Projection._k := Fin lk; Projection._x := Fin lx;
     Projection._y := Fin ly; Projection._dimensions := dims |}.

(** The argument of the constructor and of [transform] that carries all
    four fields of a [Transform]. *)
Definition likeOf (tr : Viewport.Transform) : Viewport.TransformLike :=
  {| Viewport.obj_x := Some (Viewport.x tr);
     Viewport.obj_y := Some (Viewport.y tr);
     Viewport.obj_k := Some (Viewport.k tr);
     Viewport.obj_r := Some (Viewport.r tr) |}.

(** A latitude in degrees, clamped to the latitude bounds. *)
Definition clampedLat `{B : Bounds} (lat : R) : R :=
  Rmax (min_phi * (180 / PI)) (Rmin lat (max_phi * (180 / PI))).

(** The point [P] lies on the segment from [A] to [B]. *)
Definition onSegment (P A B : R * R) : Prop :=
  exists t : R,
    0 <= t <= 1 /\
    fst P = fst A + t * (fst B - fst A) /\
    snd P = snd A + t * (snd B - snd A).

(** A point lies inside a box (its corners included). *)
Definition inBox (e : Extent.t) (p : R * R) : Prop :=
  exists lox loy hix hiy : R,
    Extent.min e = fin2 (lox, loy) /\ Extent.max e = fin2 (hix, hiy) /\
    lox <= fst p <= hix /\ loy <= snd p <= hiy.

(** A heap holding one [Transform] object, at reference [0]. *)
Definition heap1 (tr : Viewport.Transform) : Viewport.heap :=
  snd (Heap.alloc (Heap.empty (finT 0 0 0 0)) tr).

Definition viewport0 (d : Vec2) : Viewport.t :=
  {| Viewport._transform := 0%nat; Viewport._dimensions := d |}.

End Spec.

(* ================================================================= *)
(** * Properties *)

Import JS Constants Num Vec Spec.

(** Decide every [Rmin] and [Rmax] of the goal whose order linear
    arithmetic settles. *)
Ltac eval_minmax :=
  repeat match goal with
         | |- context [Rmin ?a ?b] =>
             first [ rewrite (Rmin_left a b) by lra
                   | rewrite (Rmin_right a b) by lra ]
         | |- context [Rmax ?a ?b] =>
             first [ rewrite (Rmax_left a b) by lra
                   | rewrite (Rmax_right a b) by lra ]
         end.

(* ----------------------------------------------------------------- *)
(** ** Numbers: reduction on finite values *)

Lemma sgn_pos v : 0 < v -> sgn v = Positive.
Proof.
  intro Hv. unfold sgn.
  destruct (total_order_T 0 v) as [[Hlt | Heq] | Hgt]; [reflexivity | lra | lra].
Qed.

Lemma sgn_zero : sgn 0 = Zero.
Proof.
  unfold sgn.
  destruct (total_order_T 0 0) as [[Hlt | Heq] | Hgt]; [lra | reflexivity | lra].
Qed.

Lemma sgn_neg v : v < 0 -> sgn v = Negative.
Proof.
  intro Hv. unfold sgn.
  destruct (total_order_T 0 v) as [[Hlt | Heq] | Hgt]; [lra | lra | reflexivity].
Qed.

Lemma div_fin v w : w <> 0 -> (Fin v / Fin w)%js = Fin (v / w).
Proof.
  intro Hw. unfold div.
  destruct (Req_dec_T w 0) as [Heq | Hne]; [contradiction | reflexivity].
Qed.

Lemma truthy_fin v : v <> 0 -> truthy (Fin v) = true.
Proof.
  intro Hv. unfold truthy.
  destruct (Req_dec_T v 0) as [Heq | Hne]; [contradiction | reflexivity].
Qed.

Lemma truthy_zero : truthy (Fin 0) = false.
Proof.
  unfold truthy.
  destruct (Req_dec_T 0 0) as [Heq | Hne]; [reflexivity | contradiction].
Qed.

Lemma truthy_fin_inv v : truthy (Fin v) = false -> v = 0.
Proof.
  unfold truthy.
  destruct (Req_dec_T v 0) as [Heq | Hne]; [trivial | discriminate].
Qed.

Lemma tan_fin v :
  Rtrigo_def.cos v <> 0 -> Math.tan (Fin v) = Fin (Rtrigo1.tan v).
Proof.
  intro Hc. unfold Math.tan, Math.sin, Math.cos.
  rewrite div_fin by assumption. reflexivity.
Qed.

Lemma log_fin v : 0 < v -> Math.log (Fin v) = Fin (ln v).
Proof.
  intro Hv. unfold Math.log. rewrite sgn_pos by assumption. reflexivity.
Qed.

Lemma log_zero : Math.log (Fin 0) = NInf.
Proof. unfold Math.log. rewrite sgn_zero. reflexivity. Qed.

Lemma numClamp_fin v lo hi :
  numClamp (Fin v) (Fin lo) (Fin hi) = Fin (Rmax lo (Rmin v hi)).
Proof. reflexivity. Qed.

Lemma clamp_bounds v lo hi :
  lo <= hi -> lo <= Rmax lo (Rmin v hi) <= hi.
Proof.
  intro Hle. split.
  - apply Rmax_l.
  - apply Rmax_lub; [assumption | apply Rmin_r].
Qed.

Lemma clamp_inside v lo hi :
  lo <= v <= hi -> Rmax lo (Rmin v hi) = v.
Proof.
  intros [Hlo Hhi].
  rewrite Rmin_left by assumption. apply Rmax_right; assumption.
Qed.

Lemma clamp_below v lo hi :
  lo <= hi -> v <= lo -> Rmax lo (Rmin v hi) = lo.
Proof.
  intros Hle Hv. rewrite Rmin_left by lra. apply Rmax_left; assumption.
Qed.

Lemma clamp_above v lo hi :
  lo <= hi -> hi <= v -> Rmax lo (Rmin v hi) = hi.
Proof.
  intros Hle Hv. rewrite Rmin_right by lra. apply Rmax_right; assumption.
Qed.

(* ----------------------------------------------------------------- *)
(** ** The bounds modelled from the spec *)

Lemma exp_neg_PI_lt_1 : exp (- PI) < 1.
Proof.
  rewrite <- exp_0. apply exp_increasing.
  pose proof PI_RGT_0. lra.
Qed.

Lemma gd_neg_PI_bounds : - (PI / 2) < gd (- PI) < 0.
Proof.
  unfold gd. split.
  - assert (0 < atan (exp (- PI))).
    { rewrite <- atan_0. apply atan_increasing. apply exp_pos. }
    lra.
  - assert (atan (exp (- PI)) < PI / 4).
    { rewrite <- atan_1. apply atan_increasing. apply exp_neg_PI_lt_1. }
    lra.
Qed.

Lemma gd_PI_bounds : 0 < gd PI < PI / 2.
Proof.
  unfold gd. split.
  - assert (PI / 4 < atan (exp PI)).
    { rewrite <- atan_1. apply atan_increasing.
      rewrite <- exp_0. apply exp_increasing. apply PI_RGT_0. }
    lra.
  - pose proof (atan_bound (exp PI)). lra.
Qed.

Lemma geoZoomToScale_pos z : 0 < geoZoomToScale z.
Proof.
  unfold geoZoomToScale. apply Rdiv_lt_0_compat.
  - apply Rmult_lt_0_compat; [lra | apply pow_lt; lra].
  - pose proof PI_RGT_0. lra.
Qed.

Lemma geoZoomToScale_1 : geoZoomToScale 1 = 256 / PI.
Proof. unfold geoZoomToScale. pose proof PI_RGT_0. field. lra. Qed.

Lemma geoZoomToScale_le m n :
  (m <= n)%nat -> geoZoomToScale m <= geoZoomToScale n.
Proof.
  intro Hmn. unfold geoZoomToScale.
  pose proof PI_RGT_0 as Hpi.
  apply Rmult_le_compat_r.
  - left. apply Rinv_0_lt_compat. lra.
  - apply Rmult_le_compat_l; [lra |].
    apply Rle_pow; [lra | assumption].
Qed.

Lemma spec_bounds_ok : BoundsOk spec_bounds.
Proof.
  pose proof gd_neg_PI_bounds as [Hlo Hlo'].
  pose proof gd_PI_bounds as [Hhi Hhi'].
  unfold gd in *.
  constructor; simpl.
  - apply geoZoomToScale_pos.
  - apply geoZoomToScale_le. lia.
  - exact Hlo.
  - lra.
  - exact Hhi'.
Qed.

Lemma spec_bounds_square : BoundsSquare spec_bounds.
Proof. constructor; simpl; lra. Qed.

(* ----------------------------------------------------------------- *)
(** ** Projection and its inverse on finite values *)

Section ProjectionMath.
Context `{B : Bounds}.
Hypothesis ok : BoundsOk B.

Lemma clampedPhi_inside lat : - (PI / 2) < clampedPhi lat < PI / 2.
Proof.
  destruct ok as [_ _ Hlo Hord Hhi].
  pose proof (clamp_bounds (lat * (PI / 180)) Hord) as [H1 H2].
  unfold clampedPhi. lra.
Qed.

Lemma half_angle_inside phi :
  - (PI / 2) < phi < PI / 2 -> 0 < (PI / 2 + phi) / 2 < PI / 2.
Proof. intros [H1 H2]. lra. Qed.

Lemma mercatorY_fin phi :
  - (PI / 2) < phi < PI / 2 ->
  Math.log (Math.tan ((HALF_PI + Fin phi) / Fin 2)%js)
  = Fin (ln (tan ((PI / 2 + phi) / 2))).
Proof.
  intro Hphi. apply half_angle_inside in Hphi as [Ha1 Ha2].
  unfold HALF_PI. simpl add.
  rewrite div_fin by lra.
  rewrite tan_fin.
  - apply log_fin. apply tan_gt_0; assumption.
  - apply Rgt_not_eq. apply cos_gt_0; lra.
Qed.

(** [project] without rotation, on a finite location. *)
Lemma project_fin this h tx ty tk tr lon lat :
  stored this h = finT tx ty tk tr ->
  Viewport.project this h (fin2 (lon, lat)) false
  = fin2 (lon * (PI / 180) * tk + tx,
          ty - ln (tan ((PI / 2 + clampedPhi lat) / 2)) * tk).
Proof.
  intro Hst. unfold Viewport.project. unfold stored in Hst. rewrite Hst.
  cbn [andb fin2 fst snd finT Viewport.x Viewport.y Viewport.k Viewport.r].
  unfold DEG2RAD, MIN_PHI, MAX_PHI. cbn [mul].
  rewrite numClamp_fin. fold (clampedPhi lat).
  rewrite (mercatorY_fin (clampedPhi_inside lat)).
  reflexivity.
Qed.

(** The rotation of a finite point about a finite centre. *)
Lemma vecRotate_fin px py a cx cy :
  vecRotate (fin2 (px, py)) (Fin a) (fin2 (cx, cy))
  = fin2 ((px - cx) * cos a - (py - cy) * sin a + cx,
          (px - cx) * sin a + (py - cy) * cos a + cy).
Proof. reflexivity. Qed.

Lemma vecScale_fin w h n :
  vecScale (fin2 (w, h)) (Fin n) = fin2 (w * n, h * n).
Proof. reflexivity. Qed.

Lemma project_fin_rot this h tx ty tk tr w h_ lon lat incl :
  stored this h = finT tx ty tk tr ->
  Viewport._dimensions this = fin2 (w, h_) ->
  Viewport.project this h (fin2 (lon, lat)) incl
  = fin2 (rotateAbout w h_ tr incl
            (lon * (PI / 180) * tk + tx,
             ty - ln (tan ((PI / 2 + clampedPhi lat) / 2)) * tk)).
Proof.
  intros Hst Hdim.
  pose proof (project_fin this h lon lat Hst) as Hp.
  unfold Viewport.project in *. unfold stored in Hst. rewrite Hst in *.
  cbn [andb] in Hp. rewrite Hp. rewrite Hdim.
  unfold rotateAbout.
  cbn [finT Viewport.r truthy].
  destruct (incl && (if Req_dec_T tr 0 then false else true)); reflexivity.
Qed.

Lemma unproject_fin this h tx ty tk tr px py :
  tk <> 0 ->
  stored this h = finT tx ty tk tr ->
  Viewport.unproject this h (fin2 (px, py)) false
  = fin2 ((px - tx) / tk * (180 / PI), unprojectLat ty tk py).
Proof.
  intros Hk Hst. unfold Viewport.unproject. unfold stored in Hst. rewrite Hst.
  cbn [andb fin2 fst snd finT Viewport.x Viewport.y Viewport.k Viewport.r].
  unfold Math.PI, HALF_PI, RAD2DEG. cbn [sub neg add].
  rewrite !div_fin by assumption.
  rewrite numClamp_fin. cbn [Math.exp Math.atan mul add neg].
  unfold unprojectLat, gd, Rminus, Rdiv.
  reflexivity.
Qed.

Lemma unproject_fin_rot this h tx ty tk tr w h_ px py incl :
  tk <> 0 ->
  stored this h = finT tx ty tk tr ->
  Viewport._dimensions this = fin2 (w, h_) ->
  Viewport.unproject this h (fin2 (px, py)) incl
  = fin2 ((fst (rotateAbout w h_ (- tr) incl (px, py)) - tx) / tk * (180 / PI),
          unprojectLat ty tk (snd (rotateAbout w h_ (- tr) incl (px, py)))).
Proof.
  intros Hk Hst Hdim.
  unfold rotateAbout.
  assert (Hz : (if Req_dec_T (- tr) 0 then false else true)
               = (if Req_dec_T tr 0 then false else true)).
  { destruct (Req_dec_T (- tr) 0), (Req_dec_T tr 0); try reflexivity; lra. }
  rewrite Hz. clear Hz.
  destruct (incl && (if Req_dec_T tr 0 then false else true)) eqn:Hrot.
  - unfold Viewport.unproject. unfold stored in Hst. rewrite Hst, Hdim.
    cbn [finT Viewport.r truthy Viewport.x Viewport.y Viewport.k].
    rewrite Hrot.
    cbn [neg]. rewrite vecScale_fin, vecRotate_fin.
    cbn [fin2 fst snd].
    unfold Math.PI, HALF_PI, RAD2DEG. cbn [sub neg add].
    rewrite !div_fin by assumption.
    rewrite numClamp_fin. cbn [Math.exp Math.atan mul add neg].
    unfold unprojectLat, gd, Rminus, Rdiv.
    reflexivity.
  - cbn [fst snd].
    rewrite <- (unproject_fin this h px py Hk Hst).
    unfold Viewport.unproject. unfold stored in Hst. rewrite Hst.
    cbn [finT Viewport.r truthy Viewport.x Viewport.y Viewport.k].
    rewrite Hrot. reflexivity.
Qed.

End ProjectionMath.

(* ----------------------------------------------------------------- *)
(** ** The Mercator formula and its inverse *)

Lemma gd_increasing u v : u < v -> gd u < gd v.
Proof.
  intro Huv. unfold gd.
  assert (atan (exp u) < atan (exp v)).
  { apply atan_increasing. apply exp_increasing. assumption. }
  lra.
Qed.

Lemma gd_monotone u v : u <= v -> gd u <= gd v.
Proof.
  intros [Hlt | Heq].
  - left. apply gd_increasing. assumption.
  - subst. right. reflexivity.
Qed.

Lemma gd_0 : gd 0 = 0.
Proof. unfold gd. rewrite exp_0, atan_1. lra. Qed.

(** The inverse formula undoes the forward one. *)
Lemma gd_ln_tan a : 0 < a < PI / 2 -> gd (ln (tan a)) = 2 * a - PI / 2.
Proof.
  intros [Ha1 Ha2]. unfold gd.
  rewrite exp_ln by (apply tan_gt_0; assumption).
  rewrite atan_tan by lra. reflexivity.
Qed.

Lemma gd_mercatorY phi :
  - (PI / 2) < phi < PI / 2 -> gd (ln (tan ((PI / 2 + phi) / 2))) = phi.
Proof.
  intro Hphi. rewrite gd_ln_tan by lra. lra.
Qed.

(** Latitudes between the two edges of the square world have their
    Mercator Y in [[-pi, pi]]. *)
Lemma mercatorY_in_square phi :
  gd (- PI) <= phi <= gd PI ->
  - PI <= ln (tan ((PI / 2 + phi) / 2)) <= PI.
Proof.
  intros [Hlo Hhi].
  pose proof gd_neg_PI_bounds as [Hn _].
  pose proof gd_PI_bounds as [_ Hp].
  assert (Hphi : - (PI / 2) < phi < PI / 2) by lra.
  pose proof (gd_mercatorY Hphi) as Hgd.
  set (m := ln (tan ((PI / 2 + phi) / 2))) in *.
  split.
  - destruct (Rle_lt_dec (- PI) m) as [Hle | Hlt]; [assumption |].
    apply gd_increasing in Hlt. lra.
  - destruct (Rle_lt_dec m PI) as [Hle | Hlt]; [assumption |].
    apply gd_increasing in Hlt. lra.
Qed.

(** Rotating by [a] and then by [- a] about the same centre is the
    identity. *)
Lemma rotateAbout_back w h a incl p :
  rotateAbout w h (- a) incl (rotateAbout w h a incl p) = p.
Proof.
  unfold rotateAbout.
  assert (Hz : (if Req_dec_T (- a) 0 then false else true)
               = (if Req_dec_T a 0 then false else true)).
  { destruct (Req_dec_T (- a) 0), (Req_dec_T a 0); try reflexivity; lra. }
  rewrite Hz.
  destruct (incl && (if Req_dec_T a 0 then false else true)); [| reflexivity].
  destruct p as [px py]. cbn [fst snd].
  rewrite cos_neg, sin_neg.
  pose proof (sin2_cos2 a) as Hsc. unfold Rsqr in Hsc.
  f_equal.
  - transitivity ((px - w * 0.5) * (sin a * sin a + cos a * cos a) + w * 0.5);
      [ring | rewrite Hsc; ring].
  - transitivity ((py - h * 0.5) * (sin a * sin a + cos a * cos a) + h * 0.5);
      [ring | rewrite Hsc; ring].
Qed.

Lemma fin2_eta p : fin2 p = fin2 (fst p, snd p).
Proof. destruct p. reflexivity. Qed.

Lemma Valid_inv `{B : Bounds} tr :
  Valid tr ->
  exists tx ty tk ta,
    tr = finT tx ty tk ta /\ min_k <= tk <= max_k /\ 0 <= ta < 2 * PI.
Proof.
  intros [tx ty tk ta Hk Ha]. exists tx, ty, tk, ta. auto.
Qed.

Section RoundTrip.
Context `{B : Bounds}.
Hypothesis ok : BoundsOk B.

Lemma valid_scale_nonzero tk : min_k <= tk <= max_k -> tk <> 0.
Proof. destruct ok as [Hpos _ _ _ _]. intros [H1 _]. lra. Qed.

Lemma unprojectLat_bounds ty tk py :
  gd (- PI) * (180 / PI) <= unprojectLat ty tk py <= gd PI * (180 / PI).
Proof.
  unfold unprojectLat.
  pose proof PI_RGT_0 as Hpi.
  assert (Hle : - PI <= PI) by lra.
  pose proof (clamp_bounds ((ty - py) / tk) Hle) as [H1 H2].
  apply gd_monotone in H1. apply gd_monotone in H2.
  assert (Hf : 0 < 180 / PI) by (apply Rdiv_lt_0_compat; lra).
  split; apply Rmult_le_compat_r; lra.
Qed.

End RoundTrip.

(** C3: under the invariant of the data model, for every location whose
    latitude in degrees lies strictly between the two latitude bounds,
    [unproject (project loc)] gives back [loc], without rotation and with
    [includeRotation = true] on both calls (the same rotation [r] is read
    by both).  The arithmetic being exact, the two are equal.  The bounds
    are assumed to lie inside (-pi/2, pi/2) and not to leave the square
    Mercator world. *)
Theorem project_unproject_roundtrip `{B : Bounds} :
  BoundsOk B -> BoundsSquare B ->
  forall (this : Viewport.t) (h : Viewport.heap) (w h_ lon lat : R)
         (includeRotation : bool),
    Valid (stored this h) ->
    Viewport._dimensions this = fin2 (w, h_) ->
    min_phi * (180 / PI) < lat < max_phi * (180 / PI) ->
    Viewport.unproject this h
      (Viewport.project this h (fin2 (lon, lat)) includeRotation)
      includeRotation
    = fin2 (lon, lat).
Proof.
  intros ok sq this h w h_ lon lat incl Hv Hdim Hlat.
  apply Valid_inv in Hv as (tx & ty & tk & ta & Hst & Hk & Ha).
  pose proof (valid_scale_nonzero ok Hk) as Hk0.
  pose proof PI_RGT_0 as Hpi.
  rewrite (project_fin_rot ok this h lon lat incl Hst Hdim).
  rewrite fin2_eta.
  rewrite (unproject_fin_rot this h _ _ incl Hk0 Hst Hdim).
  rewrite <- surjective_pairing.
  rewrite rotateAbout_back. cbn [fst snd].
  (* the clamp of [project] leaves the latitude alone *)
  assert (Hrad : min_phi < lat * (PI / 180) < max_phi).
  { destruct Hlat as [H1 H2].
    assert (Hf : 0 < PI / 180) by lra.
    split.
    - apply (Rmult_lt_compat_r _ _ _ Hf) in H1.
      replace (min_phi * (180 / PI) * (PI / 180)) with min_phi in H1
        by (field; lra).
      exact H1.
    - apply (Rmult_lt_compat_r _ _ _ Hf) in H2.
      replace (max_phi * (180 / PI) * (PI / 180)) with max_phi in H2
        by (field; lra).
      exact H2. }
  assert (Hphi : clampedPhi lat = lat * (PI / 180)).
  { unfold clampedPhi. apply clamp_inside. lra. }
  rewrite Hphi.
  set (phi := lat * (PI / 180)) in *.
  destruct ok as [_ _ Hlo _ Hhi]. destruct sq as [Hs1 Hs2].
  assert (Hin : - (PI / 2) < phi < PI / 2) by lra.
  assert (Hsq : gd (- PI) <= phi <= gd PI) by (unfold gd; lra).
  pose proof (mercatorY_in_square Hsq) as Hm.
  unfold fin2. cbn [fst snd]. f_equal; f_equal.
  - field. split; lra.
  - unfold unprojectLat.
    replace ((ty - (ty - ln (tan ((PI / 2 + phi) / 2)) * tk)) / tk)
      with (ln (tan ((PI / 2 + phi) / 2))) by (field; assumption).
    rewrite clamp_inside by assumption.
    rewrite gd_mercatorY by assumption.
    unfold phi. field. lra.
Qed.

Lemma stored_heap1 d tr : stored (viewport0 d) (heap1 tr) = tr.
Proof. reflexivity. Qed.

Lemma spec_default_scale_valid :
  @min_k spec_bounds <= 256 / PI <= @max_k spec_bounds.
Proof.
  simpl. rewrite <- geoZoomToScale_1.
  split; apply geoZoomToScale_le; lia.
Qed.

Lemma one_is_rotation : 0 <= 1 < 2 * PI.
Proof. pose proof PI2_1. lra. Qed.

Lemma spec_zero_latitude_inside :
  @min_phi spec_bounds * (180 / PI) < 0 < @max_phi spec_bounds * (180 / PI).
Proof.
  pose proof gd_neg_PI_bounds as [_ Hn].
  pose proof gd_PI_bounds as [Hp _].
  pose proof PI_RGT_0 as Hpi.
  assert (Hf : 0 < 180 / PI) by (apply Rdiv_lt_0_compat; lra).
  unfold gd in *. simpl. split; nra.
Qed.

Lemma project_unproject_roundtrip_witness :
  let this := viewport0 (fin2 (800, 600)) in
  let h := heap1 (finT 0 0 (256 / PI) 1) in
  @Viewport.unproject this h
    (@Viewport.project spec_bounds this h (fin2 (0, 0)) true) true
  = fin2 (0, 0).
Proof.
  intros this h.
  apply (@project_unproject_roundtrip spec_bounds
           spec_bounds_ok spec_bounds_square this h 800 600 0 0 true).
  - unfold this, h. rewrite stored_heap1.
    apply Valid_intro; [exact spec_default_scale_valid | exact one_is_rotation].
  - reflexivity.
  - exact spec_zero_latitude_inside.
Defined.



(** C9: under the invariant of the data model, for every finite point
    the latitude returned by [unproject] is finite and, in radians, lies
    within [[2 atan (exp (- pi)) - pi/2, 2 atan (exp pi) - pi/2]]; in
    degrees it stays strictly between -90 and 90. *)
Theorem unproject_latitude_range `{B : Bounds} :
  BoundsOk B ->
  forall (this : Viewport.t) (h : Viewport.heap) (w h_ px py : R)
         (includeRotation : bool),
    Valid (stored this h) ->
    Viewport._dimensions this = fin2 (w, h_) ->
    exists lon lat : R,
      Viewport.unproject this h (fin2 (px, py)) includeRotation
      = fin2 (lon, lat) /\
      2 * atan (exp (- PI)) - PI / 2 <= lat * (PI / 180)
        <= 2 * atan (exp PI) - PI / 2 /\
      -90 < lat < 90.
Proof.
  intros ok this h w h_ px py incl Hv Hdim.
  apply Valid_inv in Hv as (tx & ty & tk & ta & Hst & Hk & Ha).
  pose proof (valid_scale_nonzero ok Hk) as Hk0.
  rewrite (unproject_fin_rot this h px py incl Hk0 Hst Hdim).
  do 2 eexists. split; [reflexivity |].
  set (lat := unprojectLat _ _ _).
  pose proof (unprojectLat_bounds ty tk
                (snd (rotateAbout w h_ (- ta) incl (px, py)))) as [H1 H2].
  fold lat in H1, H2.
  pose proof gd_neg_PI_bounds as [Hn _].
  pose proof gd_PI_bounds as [_ Hp].
  pose proof PI_RGT_0 as Hpi.
  assert (Hf : 0 < PI / 180) by lra.
  assert (E1 : gd (- PI) * (180 / PI) * (PI / 180) = gd (- PI)) by (field; lra).
  assert (E2 : gd PI * (180 / PI) * (PI / 180) = gd PI) by (field; lra).
  apply (Rmult_le_compat_r _ _ _ (Rlt_le _ _ Hf)) in H1, H2.
  rewrite E1 in H1. rewrite E2 in H2.
  fold (gd (- PI)) (gd PI).
  split; [split; assumption |].
  split; nra.
Qed.

Lemma unproject_latitude_range_witness :
  let this := viewport0 (fin2 (800, 600)) in
  let h := heap1 (finT 0 0 (256 / PI) 1) in
  exists lon lat : R,
    Viewport.unproject this h (fin2 (256, 256)) true = fin2 (lon, lat) /\
    2 * atan (exp (- PI)) - PI / 2 <= lat * (PI / 180)
      <= 2 * atan (exp PI) - PI / 2 /\
    -90 < lat < 90.
Proof.
  intros this h.
  apply (@unproject_latitude_range spec_bounds spec_bounds_ok
           this h 800 600 256 256 true).
  - unfold this, h. rewrite stored_heap1.
    apply Valid_intro; [exact spec_default_scale_valid | exact one_is_rotation].
  - reflexivity.
Defined.

(* ----------------------------------------------------------------- *)
(** ** The heap *)

Lemma get_set_same {A} (h : Heap.t A) p v : Heap.get (Heap.set h p v) p = v.
Proof. unfold Heap.get, Heap.set. simpl. rewrite Nat.eqb_refl. reflexivity. Qed.

Lemma get_set_other {A} (h : Heap.t A) p q v :
  q <> p -> Heap.get (Heap.set h p v) q = Heap.get h q.
Proof.
  intro Hne. unfold Heap.get, Heap.set. simpl.
  apply Nat.eqb_neq in Hne. rewrite Hne. reflexivity.
Qed.

Lemma get_alloc_new {A} (h : Heap.t A) v :
  Heap.get (snd (Heap.alloc h v)) (fst (Heap.alloc h v)) = v.
Proof. unfold Heap.get, Heap.alloc. simpl. rewrite Nat.eqb_refl. reflexivity. Qed.

Lemma get_alloc_old {A} (h : Heap.t A) v q :
  Heap.allocated h q -> Heap.get (snd (Heap.alloc h v)) q = Heap.get h q.
Proof.
  unfold Heap.allocated, Heap.get, Heap.alloc. simpl. intro Hq.
  assert (Hne : q <> Heap.next h) by lia.
  apply Nat.eqb_neq in Hne. rewrite Hne. reflexivity.
Qed.

Lemma update_field_same h p f write :
  Heap.get (Viewport.update_field h p f write) p
  = match f with
    | Some v => write (Heap.get h p) v
    | None => Heap.get h p
    end.
Proof.
  destruct f as [v |]; simpl; [apply get_set_same | reflexivity].
Qed.

Lemma update_field_other h p q f write :
  q <> p -> Heap.get (Viewport.update_field h p f write) q = Heap.get h q.
Proof.
  intro Hne. destruct f as [v |]; simpl;
    [apply get_set_other; assumption | reflexivity].
Qed.

(* ----------------------------------------------------------------- *)
(** ** Clamping and wrapping *)

Lemma default_scale : (Fin 256 / Math.PI)%js = Fin (256 / PI).
Proof. unfold Math.PI. apply div_fin. pose proof PI_RGT_0. lra. Qed.

Lemma numWrap_fin v : numWrap (Fin v) (Fin 0) TAU = Fin (wrapped v).
Proof.
  pose proof PI_RGT_0 as Hpi.
  unfold numWrap, TAU, wrapped.
  destruct (Req_dec_T (2 * PI - 0) 0) as [Heq | Hne]; [lra |].
  rewrite !Rminus_0_r. reflexivity.
Qed.

Lemma wrapped_range v : 0 <= wrapped v < 2 * PI.
Proof.
  pose proof PI_RGT_0 as Hpi.
  unfold wrapped.
  pose proof (Zfloor_bound (v / (2 * PI))) as [H1 H2].
  assert (Hv : v = v / (2 * PI) * (2 * PI)) by (field; lra).
  set (q := v / (2 * PI)) in *.
  set (n := IZR (Zfloor q)) in *.
  rewrite Hv. split; nra.
Qed.

Lemma wrapped_TAU : wrapped (2 * PI) = 0.
Proof.
  pose proof PI_RGT_0 as Hpi.
  unfold wrapped.
  replace (2 * PI / (2 * PI)) with (IZR 1) by (field; lra).
  rewrite ZfloorZ. lra.
Qed.

(* ----------------------------------------------------------------- *)
(** ** Construction and the setters *)

Section Normalisation.
Context `{B : Bounds}.
Hypothesis ok : BoundsOk B.

Lemma constructor_stored tr d h :
  let '(this, h') := Viewport.constructor tr d h in
  stored this h'
  = {| Viewport.x := or_default (Viewport.opt_field tr Viewport.obj_x) (Fin 0);
       Viewport.y := or_default (Viewport.opt_field tr Viewport.obj_y) (Fin 0);
       Viewport.k :=
         numClamp (or_default (Viewport.opt_field tr Viewport.obj_k)
                     (Fin 256 / Math.PI)%js) MIN_K MAX_K;
       Viewport.r :=
         numWrap (or_default (Viewport.opt_field tr Viewport.obj_r) (Fin 0))
           (Fin 0) TAU |}.
Proof.
  unfold Viewport.constructor, stored, Heap.alloc, Heap.get. simpl.
  rewrite Nat.eqb_refl. reflexivity.
Qed.

Lemma constructor_allocated tr d h :
  let '(this, h') := Viewport.constructor tr d h in
  Heap.allocated h' (Viewport._transform this).
Proof.
  unfold Viewport.constructor, Heap.allocated, Heap.alloc. simpl. lia.
Qed.

Lemma scale_clamped v :
  min_k <= Rmax min_k (Rmin v max_k) <= max_k.
Proof. apply clamp_bounds. apply (k_ordered ok). Qed.

Lemma scale_nonpositive v : v <= 0 -> Rmax min_k (Rmin v max_k) = min_k.
Proof.
  intro Hv. apply clamp_below.
  - apply (k_ordered ok).
  - pose proof (min_k_pos ok). lra.
Qed.

End Normalisation.

(** C5 (as amended): a scale supplied at construction is clamped to
    [[MIN_K, MAX_K]] when it is not zero, a negative one giving exactly
    [MIN_K]; a scale of zero at construction is taken as absent and the
    default [256/pi] is clamped instead.  The scale setter clamps every
    scale it is given, zero or negative giving exactly [MIN_K].  A
    rotation supplied at construction or to the rotate setter is wrapped
    into [[0, 2 pi)] by a whole number of turns, and [2 pi] becomes 0. *)
Theorem scale_clamped_rotation_wrapped `{B : Bounds} :
  BoundsOk B ->
  forall (h : Viewport.heap) (this : Viewport.t) (o : Viewport.TransformLike)
         (d : option Vec2) (vk vr : R),
    Viewport.obj_k o = Some (Fin vk) ->
    Viewport.obj_r o = Some (Fin vr) ->
    (* construction *)
    (let '(new, h') := Viewport.constructor (Some o) d h in
     exists kk rr : R,
       Viewport.k (stored new h') = Fin kk /\
       min_k <= kk <= max_k /\
       (vk <> 0 -> kk = Rmax min_k (Rmin vk max_k)) /\
       (vk < 0 -> kk = min_k) /\
       (vk = 0 -> kk = Rmax min_k (Rmin (256 / PI) max_k)) /\
       Viewport.r (stored new h') = Fin rr /\
       0 <= rr < 2 * PI /\
       (exists n : Z, rr = vr - 2 * PI * IZR n) /\
       (vr = 2 * PI -> rr = 0))
    /\
    (* the scale setter *)
    (exists h',
       Viewport.scale this h (Some (Fin vk)) = (Viewport.This this, h') /\
       Viewport.k (stored this h') = Fin (Rmax min_k (Rmin vk max_k)) /\
       min_k <= Rmax min_k (Rmin vk max_k) <= max_k /\
       (vk <= 0 -> Viewport.k (stored this h') = MIN_K))
    /\
    (* the rotate setter *)
    (exists h' rr,
       Viewport.rotate this h (Some (Fin vr)) = (Viewport.This this, h') /\
       Viewport.r (stored this h') = Fin rr /\
       0 <= rr < 2 * PI /\
       (exists n : Z, rr = vr - 2 * PI * IZR n) /\
       (vr = 2 * PI -> rr = 0)).
Proof.
  intros ok h this o d vk vr Hk Hr.
  split; [| split].
  - pose proof (constructor_stored (Some o) d h) as Hst.
    destruct (Viewport.constructor (Some o) d h) as [new h'].
    rewrite Hst. cbn [Viewport.k Viewport.r Viewport.opt_field].
    rewrite Hk, Hr. unfold or_default.
    assert (Hrot : exists rr : R,
               numWrap (if truthy (Fin vr) then Fin vr else Fin 0) (Fin 0) TAU
               = Fin rr /\
               0 <= rr < 2 * PI /\
               (exists n : Z, rr = vr - 2 * PI * IZR n) /\
               (vr = 2 * PI -> rr = 0)).
    { destruct (truthy (Fin vr)) eqn:Ht.
      - exists (wrapped vr). rewrite numWrap_fin.
        split; [reflexivity |]. split; [apply wrapped_range |].
        split; [eexists; reflexivity |].
        intros ->. apply wrapped_TAU.
      - apply truthy_fin_inv in Ht. subst vr.
        exists (wrapped 0). rewrite numWrap_fin.
        split; [reflexivity |]. split; [apply wrapped_range |].
        split; [eexists; reflexivity |].
        pose proof PI_RGT_0. intro. lra. }
    destruct Hrot as (rr & Hw & Hrange & Hcong & Htau).
    destruct (truthy (Fin vk)) eqn:Ht.
    + exists (Rmax min_k (Rmin vk max_k)), rr.
      unfold MIN_K, MAX_K. rewrite numClamp_fin.
      split; [reflexivity |]. split; [apply (scale_clamped ok) |].
      split; [reflexivity |].
      split; [intro; apply (scale_nonpositive ok); lra |].
      split; [intros ->; rewrite truthy_zero in Ht; discriminate |].
      repeat split; try assumption; apply Hrange.
    + apply truthy_fin_inv in Ht. subst vk.
      exists (Rmax min_k (Rmin (256 / PI) max_k)), rr.
      rewrite default_scale. unfold MIN_K, MAX_K. rewrite numClamp_fin.
      split; [reflexivity |]. split; [apply (scale_clamped ok) |].
      split; [intro Hc; contradiction Hc; reflexivity |].
      split; [intro; lra |].
      split; [reflexivity |].
      repeat split; try assumption; apply Hrange.
  - eexists. split; [reflexivity |].
    unfold stored. rewrite get_set_same. cbn [Viewport.k]. unfold Viewport.uplus.
    unfold MIN_K, MAX_K. rewrite numClamp_fin.
    split; [reflexivity |]. split; [apply (scale_clamped ok) |].
    intro Hle. rewrite (scale_nonpositive ok) by assumption. reflexivity.
  - exists (Heap.set h (Viewport._transform this)
              {| Viewport.x := Viewport.x (Heap.get h (Viewport._transform this));
                 Viewport.y := Viewport.y (Heap.get h (Viewport._transform this));
                 Viewport.k := Viewport.k (Heap.get h (Viewport._transform this));
                 Viewport.r := numWrap (Viewport.uplus (Fin vr)) (Fin 0) TAU |}),
           (wrapped vr).
    split; [reflexivity |].
    unfold stored. rewrite get_set_same. cbn [Viewport.r]. unfold Viewport.uplus.
    rewrite numWrap_fin.
    split; [reflexivity |]. split; [apply wrapped_range |].
    split; [eexists; reflexivity |].
    intros ->. apply wrapped_TAU.
Qed.

Lemma scale_clamped_rotation_wrapped_witness :
  let h := heap1 (finT 0 0 (256 / PI) 0) in
  let this := viewport0 (fin2 (0, 0)) in
  (exists h',
      @Viewport.scale spec_bounds this h (Some (Fin 0))
      = (Viewport.This this, h') /\
      Viewport.k (stored this h') = @MIN_K spec_bounds)
  /\
  (exists h',
      Viewport.rotate this h (Some (Fin (2 * PI))) = (Viewport.This this, h') /\
      Viewport.r (stored this h') = Fin 0).
Proof.
  intros h this.
  destruct (@scale_clamped_rotation_wrapped spec_bounds spec_bounds_ok h this
              {| Viewport.obj_x := None; Viewport.obj_y := None;
                 Viewport.obj_k := Some (Fin 0);
                 Viewport.obj_r := Some (Fin (2 * PI)) |}
              None 0 (2 * PI) eq_refl eq_refl)
    as (_ & (h1 & Hs & _ & _ & Hmin) & (h2 & rr & Hr & Hrr & _ & _ & Hzero)).
  split.
  - exists h1. split; [exact Hs | apply Hmin; lra].
  - exists h2. split; [exact Hr |].
    rewrite Hrr. rewrite (Hzero eq_refl). reflexivity.
Defined.

(** C5 as stated fails at construction: with the bounds of the spec
    (scale between zoom 0 and zoom 24), [new Viewport ({k: 0})] stores the
    default scale [256/pi], which is not [MIN_K]. *)
Lemma constructor_zero_scale_not_MIN_K :
  let '(this, h) :=
    @Viewport.constructor spec_bounds
      (Some {| Viewport.obj_x := None; Viewport.obj_y := None;
               Viewport.obj_k := Some (Fin 0); Viewport.obj_r := None |})
      None (Heap.empty (finT 0 0 0 0)) in
  Viewport.k (stored this h) = Fin (256 / PI) /\
  Viewport.k (stored this h) <> @MIN_K spec_bounds.
Proof.
  pose proof (@constructor_stored spec_bounds
                (Some {| Viewport.obj_x := None; Viewport.obj_y := None;
                         Viewport.obj_k := Some (Fin 0);
                         Viewport.obj_r := None |})
                None (Heap.empty (finT 0 0 0 0))) as Hst.
  destruct (Viewport.constructor _ _ _) as [this h].
  rewrite Hst. cbn [Viewport.k Viewport.opt_field Viewport.obj_k or_default].
  rewrite truthy_zero, default_scale.
  unfold MIN_K, MAX_K. rewrite numClamp_fin.
  rewrite (clamp_inside spec_default_scale_valid).
  split; [reflexivity |].
  intro Heq. injection Heq as Heq. simpl in Heq.
  unfold geoZoomToScale in Heq.
  pose proof PI_RGT_0 as Hpi.
  assert (Hq : 256 / PI = 2 * (256 * 2 ^ 0 / (2 * PI))) by (field; lra).
  assert (Hp : 0 < 256 / PI) by (apply Rdiv_lt_0_compat; lra).
  lra.
Qed.

(* ----------------------------------------------------------------- *)
(** ** Dimensions *)

Lemma Zceil_half_800 : Zceil 800.5 = 801%Z.
Proof. apply Zceil_eq. lra. Qed.

Lemma Zceil_quarter_600 : Zceil 600.25 = 601%Z.
Proof. apply Zceil_eq. lra. Qed.

(** The dimensions setter rounds both components up. *)
Lemma dimensions_setter_rounds_up `{B : Bounds} this h (w h_ : R) :
  Viewport.dimensions this h (Some (fin2 (w, h_)))
  = (Viewport.This
       {| Viewport._transform := Viewport._transform this;
          Viewport._dimensions := fin2 (IZR (Zceil w), IZR (Zceil h_)) |}, h).
Proof. reflexivity. Qed.

(** C6 (the code departs from it): the constructor stores the dimensions
    it is given as they are.  Built with [[800.5, 600.25]], a viewport
    holds [[800.5, 600.25]], which is not rounded up, whereas the
    dimensions setter stores [[801, 601]] for the same pair. *)
Theorem constructor_dimensions_not_rounded `{B : Bounds} :
  forall (tr : option Viewport.TransformLike) (h : Viewport.heap),
    let d := fin2 (800.5, 600.25) in
    let this := fst (Viewport.constructor tr (Some d) h) in
    Viewport._dimensions this = d /\
    Viewport._dimensions this <> vecCeil d /\
    Viewport.dimensions this h (Some d)
    = (Viewport.This
         {| Viewport._transform := Viewport._transform this;
            Viewport._dimensions := fin2 (801, 601) |}, h).
Proof.
  intros tr h d this.
  split; [reflexivity |]. split.
  - unfold this, d, vecCeil, fin2. simpl.
    rewrite Zceil_half_800. intro Heq. injection Heq as H1 H2. lra.
  - unfold d. rewrite dimensions_setter_rounds_up.
    rewrite Zceil_half_800, Zceil_quarter_600. reflexivity.
Qed.

(* ----------------------------------------------------------------- *)
(** ** The transform accessor *)

(** C7: [transform (obj)] writes the fields present in [obj], each
    normalised on its own ([k] clamped, [r] wrapped), leaves the absent
    fields and every other object as they were, and returns [this];
    [transform ()] returns a new object that is a copy of the current
    [Transform]: it is not the viewport's own object, and whatever is
    written to it afterwards leaves the viewport's [Transform] as it
    was. *)
Theorem transform_partial_update_and_copy `{B : Bounds} :
  forall (this : Viewport.t) (h : Viewport.heap) (o : Viewport.TransformLike),
    Heap.allocated h (Viewport._transform this) ->
    (exists h',
        Viewport.transform this h (Some o) = (Viewport.This this, h') /\
        stored this h'
        = {| Viewport.x := match Viewport.obj_x o with
                           | Some v => v
                           | None => Viewport.x (stored this h)
                           end;
             Viewport.y := match Viewport.obj_y o with
                           | Some v => v
                           | None => Viewport.y (stored this h)
                           end;
             Viewport.k := match Viewport.obj_k o with
                           | Some v => numClamp v MIN_K MAX_K
                           | None => Viewport.k (stored this h)
                           end;
             Viewport.r := match Viewport.obj_r o with
                           | Some v => numWrap v (Fin 0) TAU
                           | None => Viewport.r (stored this h)
                           end |} /\
        (forall q, q <> Viewport._transform this ->
                   Heap.get h' q = Heap.get h q))
    /\
    (exists (p : Heap.ref) (h' : Viewport.heap),
        Viewport.transform this h None = (Viewport.Got p, h') /\
        p <> Viewport._transform this /\
        ~ Heap.allocated h p /\
        Heap.get h' p = stored this h /\
        stored this h' = stored this h /\
        (forall changed : Viewport.Transform,
            stored this (Heap.set h' p changed) = stored this h)).
Proof.
  intros this h o Halloc. split.
  - eexists. split; [reflexivity |]. split.
    + unfold stored.
      rewrite !update_field_same.
      destruct (stored this h) as [x0 y0 k0 r0] eqn:Hold.
      unfold stored in Hold. rewrite Hold.
      unfold Viewport.uplus.
      destruct (Viewport.obj_x o), (Viewport.obj_y o),
               (Viewport.obj_k o), (Viewport.obj_r o); reflexivity.
    + intros q Hq. rewrite !update_field_other by assumption. reflexivity.
  - exists (Heap.next h),
           (snd (Heap.alloc h (Heap.get h (Viewport._transform this)))).
    unfold Heap.allocated in *.
    assert (Hne : Viewport._transform this <> Heap.next h) by lia.
    split; [reflexivity |].
    split; [auto |].
    split; [lia |].
    split; [apply (get_alloc_new h) |].
    split.
    + unfold stored. apply get_alloc_old. exact Halloc.
    + intro changed. unfold stored.
      rewrite get_set_other by assumption.
      apply get_alloc_old. exact Halloc.
Qed.

Lemma transform_partial_update_and_copy_witness :
  let h := heap1 (finT 10 20 (256 / PI) 0) in
  let this := viewport0 (fin2 (800, 600)) in
  exists (p : Heap.ref) (h' : Viewport.heap),
    @Viewport.transform spec_bounds this h None = (Viewport.Got p, h') /\
    p <> Viewport._transform this /\
    stored this (Heap.set h' p (finT 0 0 0 0)) = finT 10 20 (256 / PI) 0.
Proof.
  intros h this.
  assert (Halloc : Heap.allocated h (Viewport._transform this)).
  { unfold Heap.allocated, h, this, heap1, Heap.alloc, viewport0. simpl. lia. }
  destruct (@transform_partial_update_and_copy spec_bounds this h
              {| Viewport.obj_x := None; Viewport.obj_y := None;
                 Viewport.obj_k := None; Viewport.obj_r := None |} Halloc)
    as (_ & p & h' & Hcall & Hne & _ & _ & _ & Hkeep).
  exists p, h'. split; [exact Hcall |]. split; [exact Hne |].
  rewrite Hkeep. reflexivity.
Defined.

(* ----------------------------------------------------------------- *)
(** ** The legacy projection at the pole *)

Lemma tan_zero_fin : Math.tan (Fin 0) = Fin 0.
Proof.
  rewrite tan_fin by (rewrite cos_0; lra).
  rewrite tan_0. reflexivity.
Qed.

Lemma legacy_project_south_pole lx ly lk lon dims :
  0 < lk ->
  Projection.project
    {| Projection._k := Fin lk; Projection._x := Fin lx;
       Projection._y := Fin ly; Projection._dimensions := dims |}
    (fin2 (lon, -90))
  = (Fin (lon * PI / 180 * lk + lx), PInf).
Proof.
  intro Hk. unfold Projection.project, Math.PI.
  cbn [fin2 fst snd Projection._k Projection._x Projection._y mul].
  rewrite !div_fin by lra. cbn [add].
  rewrite div_fin by lra.
  replace ((PI / 2 + -90 * PI / 180) / 2) with 0 by field.
  rewrite tan_zero_fin, log_zero.
  cbn [mul]. unfold inf_times. rewrite sgn_pos by assumption.
  reflexivity.
Qed.

(** C10: the legacy [Projection.project] does not clamp the latitude: at
    latitude -90 degrees it returns [Infinity] as its y component (for the
    default projection as for every positive scale), whereas
    [Viewport.project] returns a point with finite coordinates on the
    same input. *)
Theorem legacy_project_not_clamped `{B : Bounds} :
  BoundsOk B ->
  forall (this : Viewport.t) (h : Viewport.heap) (w h_ lon : R)
         (includeRotation : bool),
    Valid (stored this h) ->
    Viewport._dimensions this = fin2 (w, h_) ->
    snd (Projection.project (Projection.constructor None None None)
           (fin2 (lon, -90))) = PInf /\
    isFinite (snd (Projection.project (Projection.constructor None None None)
                     (fin2 (lon, -90)))) = false /\
    exists X Y : R,
      Viewport.project this h (fin2 (lon, -90)) includeRotation = fin2 (X, Y).
Proof.
  intros ok this h w h_ lon incl Hv Hdim.
  assert (Hleg : snd (Projection.project (Projection.constructor None None None)
                        (fin2 (lon, -90))) = PInf).
  { unfold Projection.constructor. cbn [or_default].
    rewrite default_scale.
    rewrite legacy_project_south_pole; [reflexivity |].
    apply Rdiv_lt_0_compat; [lra | apply PI_RGT_0]. }
  split; [exact Hleg |]. split; [rewrite Hleg; reflexivity |].
  apply Valid_inv in Hv as (tx & ty & tk & ta & Hst & Hk & Ha).
  rewrite (project_fin_rot ok this h lon (-90) incl Hst Hdim).
  rewrite fin2_eta. do 2 eexists. reflexivity.
Qed.

Lemma legacy_project_not_clamped_witness :
  let this := viewport0 (fin2 (800, 600)) in
  let h := heap1 (finT 0 0 (256 / PI) 1) in
  snd (Projection.project (Projection.constructor None None None)
         (fin2 (0, -90))) = PInf /\
  isFinite (snd (Projection.project (Projection.constructor None None None)
                   (fin2 (0, -90)))) = false /\
  exists X Y : R,
    @Viewport.project spec_bounds this h (fin2 (0, -90)) true = fin2 (X, Y).
Proof.
  intros this h.
  apply (@legacy_project_not_clamped spec_bounds spec_bounds_ok
           this h 800 600 0 true).
  - unfold this, h. rewrite stored_heap1.
    apply Valid_intro; [exact spec_default_scale_valid | exact one_is_rotation].
  - reflexivity.
Defined.

(* ----------------------------------------------------------------- *)
(** ** The extent of the default viewport on an 800 x 600 screen *)

Section DefaultTransform.
Variables (this : Viewport.t) (h : Viewport.heap) (w h_ : R).
Hypothesis Hst : stored this h = finT 0 0 (256 / PI) 0.
Hypothesis Hdim : Viewport._dimensions this = fin2 (w, h_).

Lemma default_scale_nonzero : 256 / PI <> 0.
Proof.
  apply Rgt_not_eq. apply Rdiv_lt_0_compat; [lra | apply PI_RGT_0].
Qed.

Lemma default_unproject px py incl :
  Viewport.unproject this h (fin2 (px, py)) incl
  = fin2 (px * (180 / 256), unprojectLat 0 (256 / PI) py).
Proof.
  rewrite (unproject_fin_rot this h px py incl default_scale_nonzero Hst Hdim).
  unfold rotateAbout.
  destruct (Req_dec_T (- 0) 0) as [_ | Hne]; [| lra].
  rewrite andb_false_r. cbn [fst snd].
  unfold fin2. cbn [fst snd]. f_equal. f_equal.
  pose proof PI_RGT_0. field. lra.
Qed.

Lemma default_lat_top : unprojectLat 0 (256 / PI) 0 = 0.
Proof.
  unfold unprojectLat.
  pose proof PI_RGT_0 as Hpi.
  replace ((0 - 0) / (256 / PI)) with 0 by (field; lra).
  rewrite clamp_inside by lra.
  rewrite gd_0. lra.
Qed.

Lemma default_lat_below py :
  256 <= py -> unprojectLat 0 (256 / PI) py = gd (- PI) * (180 / PI).
Proof.
  intro Hpy. unfold unprojectLat.
  pose proof PI_RGT_0 as Hpi.
  replace ((0 - py) / (256 / PI)) with (- (py / 256) * PI) by (field; lra).
  rewrite clamp_below; [reflexivity | lra |].
  assert (1 <= py / 256) by lra. nra.
Qed.

Lemma south_edge_negative : gd (- PI) * (180 / PI) < 0.
Proof.
  pose proof gd_neg_PI_bounds as [_ Hn].
  pose proof PI_RGT_0 as Hpi.
  assert (Hf : 0 < 180 / PI) by (apply Rdiv_lt_0_compat; lra).
  nra.
Qed.

End DefaultTransform.

Section DefaultExtent.
Variables (this : Viewport.t) (h : Viewport.heap).
Hypothesis Hst : stored this h = finT 0 0 (256 / PI) 0.
Hypothesis Hdim : Viewport._dimensions this = fin2 (800, 600).

Lemma default_polygon :
  Viewport.visiblePolygon this h
  = [fin2 (0, 0); fin2 (0, 600); fin2 (800, 600); fin2 (0, 800); fin2 (0, 0)].
Proof.
  unfold Viewport.visiblePolygon. rewrite Hdim.
  unfold stored in Hst. rewrite Hst.
  cbn [fin2 fst snd finT Viewport.r]. rewrite truthy_zero. reflexivity.
Qed.

Lemma default_extent :
  Viewport.extent this h
  = {| Extent.min := fin2 (0, gd (- PI) * (180 / PI));
       Extent.max := fin2 (562.5, 0) |}.
Proof.
  unfold Viewport.extent. rewrite default_polygon.
  cbn [removelast fold_left].
  rewrite !(default_unproject this h Hst Hdim).
  rewrite default_lat_top, !default_lat_below by lra.
  pose proof south_edge_negative as Hs.
  set (L := gd (- PI) * (180 / PI)) in *.
  unfold Extent.extendSelf, Extent.constructor, fin2.
  cbn [Extent.min Extent.max fst snd Math.min Math.max].
  replace (0 * (180 / 256)) with 0 by lra.
  replace (800 * (180 / 256)) with 562.5 by lra.
  eval_minmax. reflexivity.
Qed.

End DefaultExtent.

(** C2 (as amended): for a viewport with dimensions [[800, 600]], scale
    [256/pi], no rotation and no translation, [extent ()] is the box
    whose min corner takes its longitude from [unproject ([0, 0])] and its
    latitude from [unproject ([800, 600])], and whose max corner takes its
    longitude from [unproject ([800, 600])] and its latitude from
    [unproject ([0, 0])]: min is [[0, -85.05...]] and max [[562.5, 0]],
    the screen Y axis pointing down. *)
Theorem default_extent_corners :
  forall (this : Viewport.t) (h : Viewport.heap),
    stored this h = finT 0 0 (256 / PI) 0 ->
    Viewport._dimensions this = fin2 (800, 600) ->
    let topLeft := Viewport.unproject this h (fin2 (0, 0)) false in
    let bottomRight := Viewport.unproject this h (fin2 (800, 600)) false in
    Viewport.extent this h
    = {| Extent.min := (fst topLeft, snd bottomRight);
         Extent.max := (fst bottomRight, snd topLeft) |}
    /\ Extent.min (Viewport.extent this h) = fin2 (0, gd (- PI) * (180 / PI))
    /\ Extent.max (Viewport.extent this h) = fin2 (562.5, 0).
Proof.
  intros this h Hst Hdim topLeft bottomRight.
  rewrite (default_extent this h Hst Hdim).
  unfold topLeft, bottomRight.
  rewrite !(default_unproject this h Hst Hdim).
  rewrite default_lat_top, default_lat_below by lra.
  cbn [fin2 fst snd Extent.min Extent.max].
  replace (0 * (180 / 256)) with 0 by lra.
  replace (800 * (180 / 256)) with 562.5 by lra.
  repeat split.
Qed.

Lemma default_extent_corners_witness :
  let this := viewport0 (fin2 (800, 600)) in
  let h := heap1 (finT 0 0 (256 / PI) 0) in
  Extent.min (Viewport.extent this h) = fin2 (0, gd (- PI) * (180 / PI)) /\
  Extent.max (Viewport.extent this h) = fin2 (562.5, 0).
Proof.
  intros this h.
  apply (default_extent_corners this h eq_refl eq_refl).
Defined.

(** C2 as stated fails: the min corner of the extent is not
    [unproject ([0, 0])], and the max corner is not
    [unproject ([800, 600])]. *)
Lemma default_extent_min_not_top_left :
  let this := viewport0 (fin2 (800, 600)) in
  let h := heap1 (finT 0 0 (256 / PI) 0) in
  Extent.min (Viewport.extent this h)
    <> Viewport.unproject this h (fin2 (0, 0)) false /\
  Extent.max (Viewport.extent this h)
    <> Viewport.unproject this h (fin2 (800, 600)) false.
Proof.
  intros this h.
  assert (Hst : stored this h = finT 0 0 (256 / PI) 0) by reflexivity.
  assert (Hdim : Viewport._dimensions this = fin2 (800, 600)) by reflexivity.
  rewrite (default_extent this h Hst Hdim).
  rewrite !(default_unproject this h Hst Hdim).
  rewrite default_lat_top, default_lat_below by lra.
  pose proof south_edge_negative as Hs.
  cbn [Extent.min Extent.max]. unfold fin2. cbn [fst snd].
  split; intro Heq; injection Heq; intros; lra.
Qed.

(* ----------------------------------------------------------------- *)
(** ** The visible polygon and the visible dimensions *)

Lemma Rabs_square v : Rabs v * Rabs v = v * v.
Proof.
  rewrite <- Rabs_mult. apply Rabs_pos_eq.
  apply Rle_0_sqr.
Qed.

Lemma abs_sin_cos a :
  Rabs (sin a) * Rabs (sin a) + Rabs (cos a) * Rabs (cos a) = 1.
Proof.
  rewrite !Rabs_square. pose proof (sin2_cos2 a) as H.
  unfold Rsqr in H. exact H.
Qed.

Section VisibleGeometry.
Variables (this : Viewport.t) (h : Viewport.heap) (w h_ a : R).
Hypothesis Hrot : Viewport.r (stored this h) = Fin a.
Hypothesis Hdim : Viewport._dimensions this = fin2 (w, h_).

Let s := Rabs (sin a).
Let c := Rabs (cos a).

Lemma visiblePolygon_rotated :
  a <> 0 ->
  Viewport.visiblePolygon this h
  = map fin2
      [ (w * s * s, - (w * s * c));
        (- (h_ * c * s), h_ * c * c);
        (w - w * s * s, h_ + w * s * c);
        (w + h_ * c * s, h_ - h_ * c * c);
        (w * s * s, - (w * s * c)) ].
Proof.
  intro Ha. unfold Viewport.visiblePolygon. rewrite Hdim.
  unfold stored in Hrot. cbn [fin2 fst snd]. rewrite Hrot.
  rewrite truthy_fin by assumption. reflexivity.
Qed.

Lemma visibleDimensions_rotated :
  a <> 0 ->
  Viewport.visibleDimensions this h
  = fin2 (IZR (Zceil (w * c + h_ * s)), IZR (Zceil (h_ * c + w * s))).
Proof.
  intro Ha. unfold Viewport.visibleDimensions. rewrite Hdim.
  unfold stored in Hrot. cbn [fin2 fst snd]. rewrite Hrot.
  rewrite truthy_fin by assumption. reflexivity.
Qed.

Lemma visibleDimensions_unrotated :
  a = 0 -> Viewport.visibleDimensions this h = fin2 (w, h_).
Proof.
  intros ->. unfold Viewport.visibleDimensions. rewrite Hdim.
  unfold stored in Hrot. cbn [fin2 fst snd]. rewrite Hrot.
  rewrite truthy_zero. reflexivity.
Qed.

Lemma sc_facts : 0 <= s /\ 0 <= c /\ s * s + c * c = 1 /\ s <= 1 /\ c <= 1.
Proof.
  pose proof (Rabs_pos (sin a)) as Hs. pose proof (Rabs_pos (cos a)) as Hc.
  pose proof (abs_sin_cos a) as Hsc. fold s c in Hs, Hc, Hsc.
  repeat split; try assumption; nra.
Qed.

(** The bounding box of the rotated polygon. *)
Lemma rotated_polygon_box :
  a <> 0 -> 0 <= w -> 0 <= h_ ->
  boundingBox (Viewport.visiblePolygon this h)
  = {| Extent.min := fin2 (- (h_ * c * s), - (w * s * c));
       Extent.max := fin2 (w + h_ * c * s, h_ + w * s * c) |}.
Proof.
  intros Ha Hw Hh. rewrite (visiblePolygon_rotated Ha).
  destruct sc_facts as (Hs & Hc & Hsc & Hs1 & Hc1).
  assert (Hss : 0 <= s * s <= 1) by nra.
  assert (Hcc : 0 <= c * c <= 1) by nra.
  assert (Hcs : 0 <= c * s) by nra.
  assert (P1 : 0 <= w * s * s) by nra.
  assert (P2 : w * s * s <= w) by nra.
  assert (P3 : 0 <= h_ * c * s) by nra.
  assert (P4 : 0 <= w * s * c) by nra.
  assert (P5 : 0 <= h_ * c * c) by nra.
  assert (P6 : h_ * c * c <= h_) by nra.
  unfold boundingBox, Extent.extendSelf, Extent.constructor, fin2.
  cbn [map fold_left Extent.min Extent.max fst snd Math.min Math.max].
  set (A := w * s * s) in *. set (Bq := h_ * c * s) in *.
  set (Cq := w * s * c) in *. set (D := h_ * c * c) in *.
  assert (M1 : Rmax A (w - A) <= w) by (apply Rmax_lub; lra).
  assert (M2 : Rmax (- Cq) D <= h_) by (apply Rmax_lub; lra).
  eval_minmax. reflexivity.
Qed.

(** The sides of the rotated polygon: it is a rectangle whose sides have
    the lengths [w c + h s] and [h c + w s]. *)
Lemma rotated_polygon_sides :
  0 <= w -> 0 <= h_ ->
  let E := (w * s * s, - (w * s * c)) in
  let F := (- (h_ * c * s), h_ * c * c) in
  let G := (w - w * s * s, h_ + w * s * c) in
  let H := (w + h_ * c * s, h_ - h_ * c * c) in
  dist E H = w * c + h_ * s /\ dist F G = w * c + h_ * s /\
  dist E F = h_ * c + w * s /\ dist H G = h_ * c + w * s /\
  dot (vsub F E) (vsub H E) = 0.
Proof.
  intros Hw Hh E F G H.
  destruct sc_facts as (Hs & Hc & Hsc & Hs1 & Hc1).
  assert (Hw2 : 0 <= w * c + h_ * s) by nra.
  assert (Hh2 : 0 <= h_ * c + w * s) by nra.
  unfold dist, dot, vsub, E, F, G, H. cbn [fst snd].
  repeat split.
  - rewrite <- (sqrt_square (w * c + h_ * s)) by assumption.
    f_equal. clear - Hsc. nsatz.
  - rewrite <- (sqrt_square (w * c + h_ * s)) by assumption.
    f_equal. clear - Hsc. nsatz.
  - rewrite <- (sqrt_square (h_ * c + w * s)) by assumption.
    f_equal. clear - Hsc. nsatz.
  - rewrite <- (sqrt_square (h_ * c + w * s)) by assumption.
    f_equal. clear - Hsc. nsatz.
  - clear - Hsc. nsatz.
Qed.

End VisibleGeometry.

Lemma ZceilZ (z : Z) : Zceil (IZR z) = z.
Proof. apply Zceil_eq. lra. Qed.

Lemma quarter_turn_nonzero : PI / 2 <> 0.
Proof. pose proof PI_RGT_0. lra. Qed.

(** C1 (as amended): for dimensions [[w, h]] that are not negative and a
    rotation [r] other than 0, [visiblePolygon ()] is the closed ring of a
    rectangle [E F G H], and [visibleDimensions ()] is the pair of its
    side lengths [|EH| = w cosr + h sinr] and [|EF| = h cosr + w sinr],
    each rounded up; the axis-aligned bounding box of the ring is another,
    larger box, of width [w + 2 h cosr sinr] and height
    [h + 2 w sinr cosr].  For [r = 0], [visibleDimensions ()] is
    [[w, h]]. *)
Theorem visible_dimensions_are_polygon_sides :
  forall (this : Viewport.t) (h : Viewport.heap) (w h_ a : R),
    Viewport.r (stored this h) = Fin a ->
    Viewport._dimensions this = fin2 (w, h_) ->
    0 <= w -> 0 <= h_ ->
    let sinr := Rabs (sin a) in
    let cosr := Rabs (cos a) in
    (a <> 0 ->
     exists E F G H : R * R,
       Viewport.visiblePolygon this h = map fin2 [E; F; G; H; E] /\
       dist E H = w * cosr + h_ * sinr /\ dist F G = w * cosr + h_ * sinr /\
       dist E F = h_ * cosr + w * sinr /\ dist H G = h_ * cosr + w * sinr /\
       dot (vsub F E) (vsub H E) = 0 /\
       Viewport.visibleDimensions this h = vecCeil (fin2 (dist E H, dist E F)) /\
       boxDimensions (boundingBox (Viewport.visiblePolygon this h))
       = fin2 (w + 2 * (h_ * cosr * sinr), h_ + 2 * (w * sinr * cosr)))
    /\
    (a = 0 -> Viewport.visibleDimensions this h = fin2 (w, h_)).
Proof.
  intros this h w h_ a Hrot Hdim Hw Hh sinr cosr. split.
  - intro Ha.
    pose proof (rotated_polygon_sides a Hw Hh) as (S1 & S2 & S3 & S4 & S5).
    fold sinr cosr in S1, S2, S3, S4, S5.
    do 4 eexists.
    split; [apply (visiblePolygon_rotated this h Hrot Hdim Ha) |].
    fold sinr cosr.
    split; [exact S1 |]. split; [exact S2 |]. split; [exact S3 |].
    split; [exact S4 |]. split; [exact S5 |].
    split.
    + rewrite S1, S3. apply (visibleDimensions_rotated this h Hrot Hdim Ha).
    + rewrite (rotated_polygon_box this h Hrot Hdim Ha Hw Hh).
      fold sinr cosr.
      unfold boxDimensions, vecSubtract, fin2.
      cbn [Extent.min Extent.max fst snd sub neg add].
      f_equal; f_equal; ring.
  - apply (visibleDimensions_unrotated this h Hrot Hdim).
Qed.

Lemma visible_dimensions_are_polygon_sides_witness :
  let this := viewport0 (fin2 (800, 600)) in
  let h := heap1 (finT 0 0 (256 / PI) (PI / 2)) in
  exists E F G H : R * R,
    Viewport.visiblePolygon this h = map fin2 [E; F; G; H; E] /\
    Viewport.visibleDimensions this h = vecCeil (fin2 (dist E H, dist E F)).
Proof.
  intros this h.
  assert (H800 : 0 <= 800) by lra.
  assert (H600 : 0 <= 600) by lra.
  destruct (visible_dimensions_are_polygon_sides this h
              eq_refl eq_refl H800 H600) as [Hrot _].
  destruct (Hrot quarter_turn_nonzero)
    as (E & F & G & H & Hpoly & _ & _ & _ & _ & _ & Hvis & _).
  exists E, F, G, H. split; assumption.
Defined.

(** C1 as stated fails: on an 800 x 600 screen turned by a quarter turn,
    the bounding box of the visible polygon is 800 wide and 600 high,
    whereas the visible dimensions are [[600, 800]]. *)
Lemma polygon_box_is_not_visible_dimensions :
  let this := viewport0 (fin2 (800, 600)) in
  let h := heap1 (finT 0 0 (256 / PI) (PI / 2)) in
  vecCeil (boxDimensions (boundingBox (Viewport.visiblePolygon this h)))
    = fin2 (800, 600) /\
  Viewport.visibleDimensions this h = fin2 (600, 800) /\
  vecCeil (boxDimensions (boundingBox (Viewport.visiblePolygon this h)))
    <> Viewport.visibleDimensions this h.
Proof.
  intros this h.
  assert (Hrot : Viewport.r (stored this h) = Fin (PI / 2)) by reflexivity.
  assert (Hdim : Viewport._dimensions this = fin2 (800, 600)) by reflexivity.
  assert (H800 : 0 <= 800) by lra.
  assert (H600 : 0 <= 600) by lra.
  assert (Hbox :
    vecCeil (boxDimensions (boundingBox (Viewport.visiblePolygon this h)))
    = fin2 (800, 600)).
  { rewrite (rotated_polygon_box this h Hrot Hdim quarter_turn_nonzero
               H800 H600).
    rewrite sin_PI2, cos_PI2, Rabs_R1, Rabs_R0.
    unfold boxDimensions, vecSubtract, vecCeil, fin2.
    cbn [Extent.min Extent.max fst snd sub neg add Math.ceil].
    replace (800 + 600 * 0 * 1 + - - (600 * 0 * 1)) with (IZR 800) by lra.
    replace (600 + 800 * 1 * 0 + - - (800 * 1 * 0)) with (IZR 600) by lra.
    rewrite !ZceilZ. reflexivity. }
  assert (Hvis : Viewport.visibleDimensions this h = fin2 (600, 800)).
  { rewrite (visibleDimensions_rotated this h Hrot Hdim quarter_turn_nonzero).
    rewrite sin_PI2, cos_PI2, Rabs_R1, Rabs_R0.
    replace (800 * 0 + 600 * 1) with (IZR 600) by lra.
    replace (600 * 0 + 800 * 1) with (IZR 800) by lra.
    rewrite !ZceilZ. reflexivity. }
  split; [exact Hbox |]. split; [exact Hvis |].
  rewrite Hbox, Hvis. unfold fin2. cbn [fst snd].
  intro Heq. injection Heq as H1 H2. lra.
Qed.

(** The branch for [r = 0] of [visiblePolygon] ends its ring with the
    vertex [[0, w]]: on an 800 x 600 screen the bounding box of the ring
    is 800 wide and 800 high. *)
Lemma unrotated_polygon_box :
  let this := viewport0 (fin2 (800, 600)) in
  let h := heap1 (finT 0 0 (256 / PI) 0) in
  Viewport.visiblePolygon this h
    = [fin2 (0, 0); fin2 (0, 600); fin2 (800, 600); fin2 (0, 800); fin2 (0, 0)]
  /\ boxDimensions (boundingBox (Viewport.visiblePolygon this h))
     = fin2 (800, 800).
Proof.
  intros this h.
  assert (Hst : stored this h = finT 0 0 (256 / PI) 0) by reflexivity.
  assert (Hdim : Viewport._dimensions this = fin2 (800, 600)) by reflexivity.
  rewrite (default_polygon this h Hst Hdim).
  split; [reflexivity |].
  unfold boundingBox, boxDimensions, vecSubtract, Extent.extendSelf,
    Extent.constructor, fin2.
  cbn [fold_left Extent.min Extent.max fst snd Math.min Math.max
       sub neg add].
  eval_minmax. f_equal; f_equal; lra.
Qed.

(* ----------------------------------------------------------------- *)
(** ** Numeric enclosures *)

(** The exponential of a negative number as an alternating series. *)
Lemma exp_term_eq t i : exp_term t i = t ^ i / INR (fact i).
Proof.
  induction i as [| i IH].
  - simpl. field.
  - cbn [exp_term]. rewrite IH.
    rewrite fact_simpl, mult_INR. cbn [pow].
    field. split; [apply INR_fact_neq_0 | apply not_0_INR; lia].
Qed.

Lemma exp_term_nonneg t i : 0 <= t -> 0 <= exp_term t i.
Proof.
  intro Ht. induction i as [| i IH].
  - simpl. lra.
  - cbn [exp_term].
    assert (0 < INR (S i)) by (apply lt_0_INR; lia).
    apply Rmult_le_pos; [apply Rmult_le_pos; assumption |].
    left. apply Rinv_0_lt_compat. assumption.
Qed.

Lemma exp_term_decreasing t : 0 <= t <= 1 -> Un_decreasing (exp_term t).
Proof.
  intros [H0 H1] n. cbn [exp_term].
  pose proof (exp_term_nonneg n H0) as Hn.
  assert (Hs : 1 <= INR (S n)).
  { change 1 with (INR 1). apply le_INR. lia. }
  assert (Hq : 0 <= t / INR (S n) <= 1).
  { split.
    - apply Rmult_le_pos; [assumption |]. left. apply Rinv_0_lt_compat. lra.
    - apply Rmult_le_reg_r with (INR (S n)); [lra |].
      unfold Rdiv. rewrite Rmult_assoc, Rinv_l by lra. lra. }
  unfold Rdiv in *. rewrite Rmult_assoc. 
  set (q := t * / INR (S n)) in *. nra.
Qed.

Lemma exp_neg_series t N :
  0 <= t <= 1 ->
  sum_f_R0 (tg_alt (exp_term t)) (S (2 * N)) <= exp (- t)
    <= sum_f_R0 (tg_alt (exp_term t)) (2 * N).
Proof.
  intro Ht. apply alternated_series_ineq.
  - apply exp_term_decreasing. assumption.
  - apply Un_cv_ext with (un := fun n => t ^ n / INR (fact n)).
    + intro n. symmetry. apply exp_term_eq.
    + apply cv_speed_pow_fact.
  - unfold exp. destruct (exist_exp (- t)) as [l Hl]. simpl.
    unfold exp_in, infinite_sum in Hl.
    intros eps Heps. destruct (Hl eps Heps) as [n0 Hn0].
    exists n0. intros n Hn.
    replace (sum_f_R0 (tg_alt (exp_term t)) n)
      with (sum_f_R0 (fun i => / INR (fact i) * (- t) ^ i) n).
    + apply Hn0. assumption.
    + apply sum_eq. intros i _. unfold tg_alt. rewrite exp_term_eq.
      replace (- t) with (-1 * t) by ring.
      rewrite Rpow_mult_distr. unfold Rdiv. ring.
Qed.

(** [PI] from the series of [atan (1/3)] and [atan (1/7)]. *)
Lemma PI_enclosure : 3.14159265358 < PI < 3.14159265360.
Proof.
  pose proof (PI_2_3_7_ineq 5) as [Hlo Hhi].
  unfold sum_f_R0, tg_alt, PI_2_3_7_tg, Ratan_seq in Hlo, Hhi.
  simpl in Hlo, Hhi.
  split; lra.
Qed.

(** [exp (- PI / 4)] from thirteen and fourteen terms of its series. *)
Lemma exp_quarter_upper : exp (- (3.14159265358 / 4)) <= 0.455938127774.
Proof.
  assert (Ht : 0 <= 3.14159265358 / 4 <= 1) by lra.
  pose proof (exp_neg_series 6 Ht) as [_ Hhi].
  eapply Rle_trans; [exact Hhi |].
  unfold sum_f_R0, tg_alt. simpl. lra.
Qed.

Lemma exp_quarter_lower : 0.455938127764 <= exp (- (3.14159265360 / 4)).
Proof.
  assert (Ht : 0 <= 3.14159265360 / 4 <= 1) by lra.
  pose proof (exp_neg_series 6 Ht) as [Hlo _].
  eapply Rle_trans; [| exact Hlo].
  unfold sum_f_R0, tg_alt. simpl. lra.
Qed.
(** Polynomial bounds of sine and cosine. *)
Lemma sin_upper_5 a : 0 <= a <= 4 ->
  sin a <= a - a ^ 3 / 6 + a ^ 5 / 120.
Proof.
  intros [H0 H4]. pose proof (pre_sin_bound a 0 H0 H4) as [_ Hhi].
  eapply Rle_trans; [exact Hhi |]. right.
  unfold sin_approx, sum_f_R0, sin_term. simpl. field.
Qed.

Lemma sin_lower_3 a : 0 <= a <= 4 -> a - a ^ 3 / 6 <= sin a.
Proof.
  intros [H0 H4]. pose proof (pre_sin_bound a 0 H0 H4) as [Hlo _].
  eapply Rle_trans; [| exact Hlo]. right.
  unfold sin_approx, sum_f_R0, sin_term. simpl. field.
Qed.

Lemma cos_lower_6 a : -2 <= a <= 2 ->
  1 - a ^ 2 / 2 + a ^ 4 / 24 - a ^ 6 / 720 <= cos a.
Proof.
  intros [H0 H2]. pose proof (pre_cos_bound a 1 H0 H2) as [Hlo _].
  eapply Rle_trans; [| exact Hlo]. right.
  unfold cos_approx, sum_f_R0, cos_term. simpl. field.
Qed.

Lemma cos_upper_4 a : -2 <= a <= 2 ->
  cos a <= 1 - a ^ 2 / 2 + a ^ 4 / 24.
Proof.
  intros [H0 H2]. pose proof (pre_cos_bound a 0 H0 H2) as [_ Hhi].
  eapply Rle_trans; [exact Hhi |]. right.
  unfold cos_approx, sum_f_R0, cos_term. simpl. field.
Qed.

Lemma tan_upper_bound x T :
  0 < x < 1 -> 0 <= T ->
  x - x ^ 3 / 6 + x ^ 5 / 120
    <= T * (1 - x ^ 2 / 2 + x ^ 4 / 24 - x ^ 6 / 720) ->
  tan x <= T.
Proof.
  intros [H0 H1] HT Hnum.
  assert (Hx4 : 0 <= x <= 4) by lra.
  assert (Hx2 : -2 <= x <= 2) by lra.
  pose proof (sin_upper_5 Hx4) as Hs.
  pose proof (cos_lower_6 Hx2) as Hc.
  pose proof PI2_1 as Hpi.
  assert (Hcos : 0 < cos x) by (apply cos_gt_0; lra).
  unfold tan.
  apply Rmult_le_reg_r with (cos x); [assumption |].
  unfold Rdiv. rewrite Rmult_assoc, Rinv_l by lra. rewrite Rmult_1_r.
  apply Rle_trans with (1 := Hs). apply Rle_trans with (1 := Hnum).
  apply Rmult_le_compat_l; assumption.
Qed.

Lemma tan_lower_bound x T :
  0 < x < 1 -> 0 <= T ->
  T * (1 - x ^ 2 / 2 + x ^ 4 / 24) <= x - x ^ 3 / 6 ->
  T <= tan x.
Proof.
  intros [H0 H1] HT Hnum.
  assert (Hx4 : 0 <= x <= 4) by lra.
  assert (Hx2 : -2 <= x <= 2) by lra.
  pose proof (sin_lower_3 Hx4) as Hs.
  pose proof (cos_upper_4 Hx2) as Hc.
  pose proof PI2_1 as Hpi.
  assert (Hcos : 0 < cos x) by (apply cos_gt_0; lra).
  unfold tan.
  apply Rmult_le_reg_r with (cos x); [assumption |].
  unfold Rdiv. rewrite Rmult_assoc, Rinv_l by lra. rewrite Rmult_1_r.
  apply Rle_trans with (2 := Hs). apply Rle_trans with (2 := Hnum).
  apply Rmult_le_compat_l; assumption.
Qed.

Lemma tan_monotone x y :
  - (PI / 2) < x -> x <= y -> y < PI / 2 -> tan x <= tan y.
Proof.
  intros Hx [Hlt | Heq] Hy.
  - left. apply tan_increasing; lra.
  - subst. right. reflexivity.
Qed.

(** Enclosure of [exp (- PI)]. *)
Lemma exp_neg_PI_enclosure :
  0.04321391826301 <= exp (- PI) <= 0.04321391826681.
Proof.
  pose proof PI_enclosure as [Hlo Hhi].
  pose proof exp_quarter_upper as HU.
  pose proof exp_quarter_lower as HL.
  assert (Hq : exp (- PI) = exp (- (PI / 4)) ^ 4).
  { replace (- PI) with (- (PI / 4) + (- (PI / 4) + (- (PI / 4) + - (PI / 4))))
      by field.
    rewrite !exp_plus. ring. }
  assert (H1 : exp (- (PI / 4)) <= 0.455938127774).
  { apply Rle_trans with (2 := HU). left. apply exp_increasing. lra. }
  assert (H2 : 0.455938127764 <= exp (- (PI / 4))).
  { apply Rle_trans with (1 := HL). left. apply exp_increasing. lra. }
  rewrite Hq. set (e := exp (- (PI / 4))) in *.
  split.
  - apply Rle_trans with (0.455938127764 ^ 4); [lra |].
    apply pow_incr. lra.
  - apply Rle_trans with (0.455938127774 ^ 4); [| lra].
    apply pow_incr. lra.
Qed.

(** The three comparisons of the tangent with the exponential. *)
Lemma tan_edge_upper :
  tan (PI * ((90 - 85.0511287798) / 360))
    <= exp (- PI + 1e-6 * PI / 256).
Proof.
  pose proof PI_enclosure as [Hlo Hhi].
  pose proof exp_neg_PI_enclosure as [HE _].
  assert (Ht : tan (PI * ((90 - 85.0511287798) / 360)) <= 0.04321391826403).
  { apply Rle_trans with (tan 0.04318704852498).
    - apply tan_monotone; lra.
    - apply tan_upper_bound; lra. }
  rewrite exp_plus.
  assert (Heps : 1 + 1e-6 * PI / 256 <= exp (1e-6 * PI / 256)).
  { left. apply exp_ineq1. lra. }
  assert (Hmul : exp (- PI) * (1 + 1e-6 * PI / 256)
                 <= exp (- PI) * exp (1e-6 * PI / 256)).
  { apply Rmult_le_compat_l; lra. }
  nra.
Qed.

Lemma tan_edge_outside :
  exp (- PI) <= tan (PI * ((90 - 85.0511287798 + 1e-6) / 360)).
Proof.
  pose proof PI_enclosure as [Hlo Hhi].
  pose proof exp_neg_PI_enclosure as [_ HE].
  apply Rle_trans with (1 := HE).
  apply Rle_trans with (tan 0.043187057251351).
  - apply tan_lower_bound; lra.
  - apply tan_monotone; lra.
Qed.

Lemma tan_edge_inside :
  tan (PI * ((90 - 85.0511287798 - 1e-6) / 360)) <= exp (- PI).
Proof.
  pose proof PI_enclosure as [Hlo Hhi].
  pose proof exp_neg_PI_enclosure as [HE _].
  apply Rle_trans with (2 := HE).
  apply Rle_trans with (tan 0.043187039798334).
  - apply tan_monotone; lra.
  - apply tan_upper_bound; lra.
Qed.

(* ----------------------------------------------------------------- *)
(** ** Known values of the projection *)

Lemma gd_inside y : - (PI / 2) < gd y < PI / 2.
Proof.
  unfold gd. pose proof (atan_bound (exp y)) as [_ Hhi].
  assert (0 < atan (exp y)).
  { rewrite <- atan_0. apply atan_increasing. apply exp_pos. }
  lra.
Qed.

Lemma gd_opp y : gd (- y) = - gd y.
Proof.
  unfold gd. rewrite exp_Ropp. rewrite atan_inv by apply exp_pos. lra.
Qed.

Lemma atan_monotone u v : u <= v -> atan u <= atan v.
Proof.
  intros [Hlt | Heq].
  - left. apply atan_increasing. assumption.
  - subst. right. reflexivity.
Qed.

(** A latitude between [gd y1] and [gd y2] has its Mercator Y between
    [y1] and [y2]. *)
Lemma mercatorY_between y1 y2 phi :
  gd y1 <= phi <= gd y2 ->
  y1 <= ln (tan ((PI / 2 + phi) / 2)) <= y2.
Proof.
  intros [Hlo Hhi].
  pose proof (gd_inside y1) as [Hn _].
  pose proof (gd_inside y2) as [_ Hp].
  assert (Hphi : - (PI / 2) < phi < PI / 2) by lra.
  pose proof (gd_mercatorY Hphi) as Hgd.
  set (m := ln (tan ((PI / 2 + phi) / 2))) in *.
  split.
  - destruct (Rle_lt_dec y1 m) as [Hle | Hlt]; [assumption |].
    apply gd_increasing in Hlt. lra.
  - destruct (Rle_lt_dec m y2) as [Hle | Hlt]; [assumption |].
    apply gd_increasing in Hlt. lra.
Qed.

(** The latitude -85.0511287798 degrees is within a millionth of a pixel
    (at zoom 1) of the southern edge of the square world. *)
Lemma south_edge_latitude :
  -85.0511287798 * (PI / 180) <= gd (- PI + 1e-6 * PI / 256).
Proof.
  pose proof PI_enclosure as [Hlo Hhi].
  pose proof tan_edge_upper as Ht.
  apply atan_monotone in Ht.
  rewrite atan_tan in Ht by lra.
  unfold gd. lra.
Qed.

Lemma south_edge_degrees :
  -85.0511287798 - 1e-6 <= gd (- PI) * (180 / PI) <= -85.0511287798 + 1e-6.
Proof.
  pose proof PI_enclosure as [Hlo Hhi].
  pose proof tan_edge_outside as Hout.
  pose proof tan_edge_inside as Hin.
  apply atan_monotone in Hout, Hin.
  rewrite atan_tan in Hout, Hin by lra.
  assert (Hrad : (-85.0511287798 - 1e-6) * (PI / 180) <= gd (- PI)
                 <= (-85.0511287798 + 1e-6) * (PI / 180)).
  { unfold gd. lra. }
  assert (Hf : 0 < 180 / PI) by (apply Rdiv_lt_0_compat; lra).
  destruct Hrad as [H1 H2].
  apply (Rmult_le_compat_r _ _ _ (Rlt_le _ _ Hf)) in H1, H2.
  replace ((-85.0511287798 - 1e-6) * (PI / 180) * (180 / PI))
    with (-85.0511287798 - 1e-6) in H1 by (field; lra).
  replace ((-85.0511287798 + 1e-6) * (PI / 180) * (180 / PI))
    with (-85.0511287798 + 1e-6) in H2 by (field; lra).
  split; assumption.
Qed.

Section KnownValues.
Context `{B : Bounds}.
Hypothesis ok : BoundsOk B.
Hypothesis Hmin : min_phi = gd (- PI).
Hypothesis Hmax : max_phi = gd PI.

Lemma clampedPhi_zero : clampedPhi 0 = 0.
Proof.
  unfold clampedPhi. rewrite Hmin, Hmax.
  pose proof gd_neg_PI_bounds. pose proof gd_PI_bounds.
  rewrite clamp_inside by lra. ring.
Qed.

Lemma clampedPhi_south :
  gd (- PI) <= clampedPhi (-85.0511287798) <= gd (- PI + 1e-6 * PI / 256).
Proof.
  unfold clampedPhi. rewrite Hmin, Hmax.
  pose proof PI_RGT_0 as Hpi.
  pose proof south_edge_latitude as Hs.
  split; [apply Rmax_l |].
  apply Rmax_lub.
  - apply gd_monotone. lra.
  - apply Rle_trans with (2 := Hs). apply Rmin_l.
Qed.

Lemma clampedPhi_north :
  gd (PI - 1e-6 * PI / 256) <= clampedPhi 85.0511287798 <= gd PI.
Proof.
  unfold clampedPhi. rewrite Hmin, Hmax.
  pose proof PI_RGT_0 as Hpi.
  pose proof south_edge_latitude as Hs.
  assert (Hn : gd (PI - 1e-6 * PI / 256) <= 85.0511287798 * (PI / 180)).
  { replace (PI - 1e-6 * PI / 256) with (- (- PI + 1e-6 * PI / 256)) by ring.
    rewrite gd_opp. lra. }
  split.
  - apply Rle_trans with (2 := Rmax_r _ _).
    apply Rmin_glb; [assumption | apply gd_monotone; lra].
  - apply Rmax_lub; [apply gd_monotone; lra | apply Rmin_r].
Qed.

End KnownValues.

(** C8: with a viewport of scale [256/pi], translation (0,0) and rotation
    0, and the latitude bounds at the edges of the square world,
    [project ([0, 0])] is [[0, 0]]; [project ([180, -85.0511287798])] is
    within 1e-6 of [[256, 256]]; [project ([-180, 85.0511287798])] is
    within 1e-6 of [[-256, -256]]; and [unproject ([256, 256])] is within
    1e-6 of [[180, -85.0511287798]]. *)
Theorem mercator_known_values `{B : Bounds} :
  BoundsOk B -> min_phi = gd (- PI) -> max_phi = gd PI ->
  forall (this : Viewport.t) (h : Viewport.heap) (w h_ : R),
    stored this h = finT 0 0 (256 / PI) 0 ->
    Viewport._dimensions this = fin2 (w, h_) ->
    Viewport.project this h (fin2 (0, 0)) false = fin2 (0, 0) /\
    (exists X Y : R,
        Viewport.project this h (fin2 (180, -85.0511287798)) false
        = fin2 (X, Y) /\
        Rabs (X - 256) <= 1e-6 /\ Rabs (Y - 256) <= 1e-6) /\
    (exists X Y : R,
        Viewport.project this h (fin2 (-180, 85.0511287798)) false
        = fin2 (X, Y) /\
        Rabs (X - -256) <= 1e-6 /\ Rabs (Y - -256) <= 1e-6) /\
    (exists lon lat : R,
        Viewport.unproject this h (fin2 (256, 256)) false = fin2 (lon, lat) /\
        Rabs (lon - 180) <= 1e-6 /\ Rabs (lat - -85.0511287798) <= 1e-6).
Proof.
  intros ok Hmin Hmax this h w h_ Hst Hdim.
  pose proof PI_RGT_0 as Hpi.
  assert (Hk : 0 < 256 / PI) by (apply Rdiv_lt_0_compat; lra).
  assert (Heps : 1e-6 * PI / 256 * (256 / PI) = 1e-6) by (field; lra).
  split; [| split; [| split]].
  - rewrite (project_fin ok this h 0 0 Hst).
    rewrite (clampedPhi_zero Hmin Hmax).
    replace ((PI / 2 + 0) / 2) with (PI / 4) by field.
    rewrite tan_PI4, ln_1.
    unfold fin2. cbn [fst snd]. f_equal; f_equal; ring.
  - rewrite (project_fin ok this h 180 (-85.0511287798) Hst).
    do 2 eexists. split; [reflexivity |].
    pose proof (mercatorY_between (clampedPhi_south Hmin Hmax)) as [M1 M2].
    set (m := ln (tan ((PI / 2 + clampedPhi (-85.0511287798)) / 2))) in *.
    split.
    + replace (180 * (PI / 180) * (256 / PI) + 0 - 256) with 0
        by (field; lra).
      rewrite Rabs_R0. lra.
    + assert (Hlo : 0 <= (m - - PI) * (256 / PI)) by (apply Rmult_le_pos; lra).
      assert (Hhi : (m - - PI) * (256 / PI)
                    <= 1e-6 * PI / 256 * (256 / PI))
        by (apply Rmult_le_compat_r; lra).
      rewrite Heps in Hhi.
      assert (Hpk : PI * (256 / PI) = 256) by (field; lra).
      apply Rabs_le. lra.
  - rewrite (project_fin ok this h (-180) 85.0511287798 Hst).
    do 2 eexists. split; [reflexivity |].
    pose proof (mercatorY_between (clampedPhi_north Hmin Hmax)) as [M1 M2].
    set (m := ln (tan ((PI / 2 + clampedPhi 85.0511287798) / 2))) in *.
    split.
    + replace (-180 * (PI / 180) * (256 / PI) + 0 - -256) with 0
        by (field; lra).
      rewrite Rabs_R0. lra.
    + assert (Hlo : 0 <= (PI - m) * (256 / PI)) by (apply Rmult_le_pos; lra).
      assert (Hhi : (PI - m) * (256 / PI)
                    <= 1e-6 * PI / 256 * (256 / PI))
        by (apply Rmult_le_compat_r; lra).
      rewrite Heps in Hhi.
      assert (Hpk : PI * (256 / PI) = 256) by (field; lra).
      apply Rabs_le. lra.
  - rewrite (default_unproject this h Hst Hdim).
    do 2 eexists. split; [reflexivity |].
    rewrite default_lat_below by lra.
    pose proof south_edge_degrees as [D1 D2].
    split.
    + replace (256 * (180 / 256) - 180) with 0 by field.
      rewrite Rabs_R0. lra.
    + apply Rabs_le. lra.
Qed.

Lemma wrapped_zero : wrapped 0 = 0.
Proof.
  unfold wrapped.
  replace (0 / (2 * PI)) with (IZR 0) by (unfold Rdiv; ring).
  rewrite ZfloorZ. ring.
Qed.

(** The default viewport, [new Viewport ()], under the bounds modelled
    from the spec. *)
Lemma default_viewport h :
  let '(this, h') := @Viewport.constructor spec_bounds None None h in
  stored this h' = finT 0 0 (256 / PI) 0 /\
  Viewport._dimensions this = fin2 (0, 0).
Proof.
  pose proof (@constructor_stored spec_bounds None None h) as Hst.
  destruct (Viewport.constructor None None h) as [this h'] eqn:Hc.
  split.
  - rewrite Hst. cbn [Viewport.opt_field or_default].
    rewrite default_scale. unfold MIN_K, MAX_K.
    rewrite numClamp_fin, numWrap_fin.
    rewrite (clamp_inside spec_default_scale_valid), wrapped_zero.
    reflexivity.
  - unfold Viewport.constructor in Hc. cbn in Hc.
    injection Hc as <- _. reflexivity.
Qed.

Lemma mercator_known_values_witness :
  let this := fst (@Viewport.constructor spec_bounds None None
                     (Heap.empty (finT 0 0 0 0))) in
  let h := snd (@Viewport.constructor spec_bounds None None
                  (Heap.empty (finT 0 0 0 0))) in
  @Viewport.project spec_bounds this h (fin2 (0, 0)) false = fin2 (0, 0) /\
  (exists X Y : R,
      @Viewport.project spec_bounds this h (fin2 (180, -85.0511287798)) false
      = fin2 (X, Y) /\
      Rabs (X - 256) <= 1e-6 /\ Rabs (Y - 256) <= 1e-6) /\
  (exists X Y : R,
      @Viewport.project spec_bounds this h (fin2 (-180, 85.0511287798)) false
      = fin2 (X, Y) /\
      Rabs (X - -256) <= 1e-6 /\ Rabs (Y - -256) <= 1e-6) /\
  (exists lon lat : R,
      Viewport.unproject this h (fin2 (256, 256)) false = fin2 (lon, lat) /\
      Rabs (lon - 180) <= 1e-6 /\ Rabs (lat - -85.0511287798) <= 1e-6).
Proof.
  intros this h.
  pose proof (default_viewport (Heap.empty (finT 0 0 0 0))) as Hd.
  fold this h in Hd.
  destruct (@Viewport.constructor spec_bounds None None
              (Heap.empty (finT 0 0 0 0))) as [this0 h0] eqn:Hc.
  destruct Hd as [Hst Hdim].
  apply (@mercator_known_values spec_bounds spec_bounds_ok eq_refl eq_refl
           this h 0 0).
  - exact Hst.
  - exact Hdim.
Defined.

(* ----------------------------------------------------------------- *)
(** ** The invariant is established and kept *)

Section Invariant.
Context `{B : Bounds}.
Hypothesis ok : BoundsOk B.

Lemma or_default_finite f d :
  finite_opt f -> exists v, or_default f (Fin d) = Fin v.
Proof.
  destruct f as [[v | | |] |]; simpl; intro Hf; try discriminate.
  - destruct (Req_dec_T v 0); eexists; reflexivity.
  - eexists; reflexivity.
Qed.

(** A viewport built from finite fields satisfies the invariant. *)
Lemma constructor_valid o d h :
  finite_opt (Viewport.obj_x o) -> finite_opt (Viewport.obj_y o) ->
  finite_opt (Viewport.obj_k o) -> finite_opt (Viewport.obj_r o) ->
  let '(this, h') := Viewport.constructor (Some o) d h in
  Valid (stored this h').
Proof.
  intros Hx Hy Hk Hr.
  pose proof (constructor_stored (Some o) d h) as Hst.
  destruct (Viewport.constructor (Some o) d h) as [this h'].
  rewrite Hst. cbn [Viewport.opt_field].
  destruct (@or_default_finite _ 0 Hx) as [vx ->].
  destruct (@or_default_finite _ 0 Hy) as [vy ->].
  destruct (@or_default_finite _ 0 Hr) as [vr ->].
  rewrite default_scale.
  destruct (@or_default_finite _ (256 / PI) Hk) as [vk ->].
  unfold MIN_K, MAX_K. rewrite numClamp_fin, numWrap_fin.
  apply (Valid_intro vx vy); [apply (scale_clamped ok) | apply wrapped_range].
Qed.

(** The setters keep the invariant when given finite values. *)
Lemma setters_keep_valid this h (v u : R) :
  Valid (stored this h) ->
  Valid (stored this (snd (Viewport.scale this h (Some (Fin v))))) /\
  Valid (stored this (snd (Viewport.rotate this h (Some (Fin v))))) /\
  Valid (stored this (snd (Viewport.translate this h (Some (fin2 (v, u)))))).
Proof.
  intro Hv. apply Valid_inv in Hv as (tx & ty & tk & ta & Hst & Hk & Ha).
  unfold stored in *. cbn [Viewport.scale Viewport.rotate Viewport.translate snd].
  rewrite !get_set_same, Hst. unfold Viewport.uplus.
  cbn [finT Viewport.x Viewport.y Viewport.k Viewport.r fin2 fst snd].
  unfold MIN_K, MAX_K. rewrite numClamp_fin, numWrap_fin.
  split; [| split].
  - apply (Valid_intro tx ty); [apply (scale_clamped ok) | assumption].
  - apply (Valid_intro tx ty); [assumption | apply wrapped_range].
  - apply (Valid_intro v u); assumption.
Qed.

End Invariant.

(* ================================================================= *)
(** * Further properties of the accessors *)

Lemma wrapped_inside v : 0 <= v < 2 * PI -> wrapped v = v.
Proof.
  intros [H0 H1]. pose proof PI_RGT_0 as Hpi. unfold wrapped.
  assert (Hq : 0 <= v / (2 * PI) < 1).
  { split.
    - apply Rmult_le_pos; [assumption |]. left. apply Rinv_0_lt_compat. lra.
    - apply Rmult_lt_reg_r with (2 * PI); [lra |].
      unfold Rdiv. rewrite Rmult_assoc, Rinv_l by lra. lra. }
  rewrite (Zfloor_eq 0); [lra |]. simpl. lra.
Qed.

Lemma wrapped_whole_turns v (n : Z) : wrapped (v + 2 * PI * IZR n) = wrapped v.
Proof.
  pose proof PI_RGT_0 as Hpi. unfold wrapped.
  replace ((v + 2 * PI * IZR n) / (2 * PI)) with (v / (2 * PI) + IZR n)
    by (field; lra).
  rewrite Zfloor_addz, plus_IZR. ring.
Qed.

(** X1: [translate (v)] returns [this] and stores both components as
    given; a following [translate ()] returns [v]; the scale, the
    rotation and every other object of the heap are left as they were. *)
Theorem translate_set_then_get :
  forall (this : Viewport.t) (h : Viewport.heap) (v : Vec2),
    let h' := snd (Viewport.translate this h (Some v)) in
    fst (Viewport.translate this h (Some v)) = Viewport.This this /\
    Viewport.translate this h' None = (Viewport.Got v, h') /\
    Viewport.k (stored this h') = Viewport.k (stored this h) /\
    Viewport.r (stored this h') = Viewport.r (stored this h) /\
    (forall q, q <> Viewport._transform this -> Heap.get h' q = Heap.get h q).
Proof.
  intros this h [v1 v2] h'. unfold h'.
  cbn [Viewport.translate fst snd]. unfold stored, Viewport.uplus.
  rewrite !get_set_same. cbn [Viewport.x Viewport.y Viewport.k Viewport.r].
  repeat split.
  intros q Hq. apply get_set_other. assumption.
Qed.

(** X2: after [scale (v)], [scale ()] returns [v] clamped to
    [[MIN_K, MAX_K]]: [MIN_K] for a value at or below it, [MAX_K] for a
    value at or above it, [v] itself in between; setting the scale to the
    value read back changes nothing. *)
Theorem scale_set_then_get `{B : Bounds} :
  BoundsOk B ->
  forall (this : Viewport.t) (h : Viewport.heap) (v : R),
    let h' := snd (Viewport.scale this h (Some (Fin v))) in
    exists kk : R,
      Viewport.scale this h' None = (Viewport.Got (Fin kk), h') /\
      min_k <= kk <= max_k /\
      (v <= min_k -> kk = min_k) /\
      (max_k <= v -> kk = max_k) /\
      (min_k <= v <= max_k -> kk = v) /\
      stored this (snd (Viewport.scale this h' (Some (Fin kk))))
      = stored this h'.
Proof.
  intros ok this h v h'. unfold h'.
  exists (Rmax min_k (Rmin v max_k)).
  pose proof (k_ordered ok) as Hord.
  pose proof (scale_clamped ok v) as Hin.
  cbn [Viewport.scale fst snd]. unfold stored, Viewport.uplus.
  rewrite !get_set_same. cbn [Viewport.x Viewport.y Viewport.k Viewport.r].
  unfold MIN_K, MAX_K. rewrite !numClamp_fin.
  split; [reflexivity |]. split; [exact Hin |].
  split; [intro; apply clamp_below; assumption |].
  split; [intro; apply clamp_above; assumption |].
  split; [intro; apply clamp_inside; assumption |].
  rewrite (clamp_inside Hin). reflexivity.
Qed.

Lemma scale_set_then_get_witness :
  let this := viewport0 (fin2 (800, 600)) in
  let h := heap1 (finT 10 20 (256 / PI) 1) in
  let h' := snd (@Viewport.scale spec_bounds this h (Some (Fin 0))) in
  exists kk : R,
    @Viewport.scale spec_bounds this h' None = (Viewport.Got (Fin kk), h') /\
    kk = @min_k spec_bounds.
Proof.
  intros this h h'.
  destruct (@scale_set_then_get spec_bounds spec_bounds_ok this h 0)
    as (kk & Hget & _ & Hlow & _).
  exists kk. split; [exact Hget |].
  apply Hlow. left. apply (min_k_pos spec_bounds_ok).
Defined.

(** X3: turning by whole turns more or less makes no difference: for an
    angle [v] in [[0, 2 pi)] and any integer [n], after
    [rotate (v + 2 pi n)] the call [rotate ()] returns [v], and the
    translation and the scale are left as they were. *)
Theorem rotate_whole_turns :
  forall (this : Viewport.t) (h : Viewport.heap) (v : R) (n : Z),
    0 <= v < 2 * PI ->
    let h' := snd (Viewport.rotate this h (Some (Fin (v + 2 * PI * IZR n)))) in
    Viewport.rotate this h' None = (Viewport.Got (Fin v), h') /\
    Viewport.x (stored this h') = Viewport.x (stored this h) /\
    Viewport.y (stored this h') = Viewport.y (stored this h) /\
    Viewport.k (stored this h') = Viewport.k (stored this h).
Proof.
  intros this h v n Hv h'. unfold h'.
  cbn [Viewport.rotate fst snd]. unfold stored, Viewport.uplus.
  rewrite !get_set_same. cbn [Viewport.x Viewport.y Viewport.k Viewport.r].
  rewrite numWrap_fin, wrapped_whole_turns, (wrapped_inside Hv).
  repeat split.
Qed.

Lemma rotate_whole_turns_witness :
  let this := viewport0 (fin2 (800, 600)) in
  let h := heap1 (finT 10 20 (256 / PI) 0) in
  let h' := snd (Viewport.rotate this h (Some (Fin (1 + 2 * PI * IZR (-3))))) in
  Viewport.rotate this h' None = (Viewport.Got (Fin 1), h').
Proof.
  intros this h h'.
  apply (rotate_whole_turns this h (-3) one_is_rotation).
Defined.

(** X4: [transform (obj)] with all four fields present does what
    [translate ([x, y])], [scale (k)] and [rotate (r)] do one after the
    other: the two heaps hold the same objects. *)
Theorem transform_is_translate_scale_rotate `{B : Bounds} :
  forall (this : Viewport.t) (h : Viewport.heap) (vx vy vk vr : number),
    let o := {| Viewport.obj_x := Some vx; Viewport.obj_y := Some vy;
                Viewport.obj_k := Some vk; Viewport.obj_r := Some vr |} in
    let h1 := snd (Viewport.translate this h (Some (vx, vy))) in
    let h2 := snd (Viewport.scale this h1 (Some vk)) in
    let h3 := snd (Viewport.rotate this h2 (Some vr)) in
    forall q, Heap.get (snd (Viewport.transform this h (Some o))) q
              = Heap.get h3 q.
Proof.
  intros this h vx vy vk vr o h1 h2 h3 q.
  unfold h3, h2, h1, o.
  cbn [Viewport.transform Viewport.translate Viewport.scale Viewport.rotate
       Viewport.update_field Viewport.obj_x Viewport.obj_y Viewport.obj_k
       Viewport.obj_r fst snd].
  unfold Viewport.uplus.
  destruct (Nat.eq_dec q (Viewport._transform this)) as [-> | Hne].
  - rewrite !get_set_same. reflexivity.
  - rewrite !get_set_other by assumption. reflexivity.
Qed.

Lemma transform_get_copy `{B : Bounds} this h :
  Heap.allocated h (Viewport._transform this) ->
  exists (p : Heap.ref) (h' : Viewport.heap),
    Viewport.transform this h None = (Viewport.Got p, h') /\
    Heap.get h' p = stored this h /\
    stored this h' = stored this h.
Proof.
  intro Halloc.
  exists (Heap.next h),
         (snd (Heap.alloc h (Heap.get h (Viewport._transform this)))).
  split; [reflexivity |]. split.
  - apply (get_alloc_new h).
  - unfold stored. apply get_alloc_old. exact Halloc.
Qed.

(** X5: under the invariant, the object handed out by [transform ()]
    describes the viewport fully: passed back to [transform], it leaves
    the viewport's [Transform] as it is, and passed to the constructor it
    gives a viewport with an equal [Transform]. *)
Theorem transform_copy_reproduces `{B : Bounds} :
  BoundsOk B ->
  forall (this : Viewport.t) (h : Viewport.heap) (d : option Vec2),
    Heap.allocated h (Viewport._transform this) ->
    Valid (stored this h) ->
    exists (p : Heap.ref) (h' : Viewport.heap),
      Viewport.transform this h None = (Viewport.Got p, h') /\
      stored this
        (snd (Viewport.transform this h' (Some (likeOf (Heap.get h' p)))))
      = stored this h /\
      (let '(new, h'') :=
         Viewport.constructor (Some (likeOf (Heap.get h' p))) d h' in
       stored new h'' = stored this h).
Proof.
  intros ok this h d Halloc Hv.
  destruct (transform_get_copy this Halloc)
    as (p & h' & Hcall & Hcopy & Hkeep).
  apply Valid_inv in Hv as (tx & ty & tk & ta & Hst & Hk & Ha).
  exists p, h'. split; [exact Hcall |].
  rewrite Hcopy, Hst.
  pose proof (valid_scale_nonzero ok Hk) as Hk0.
  split.
  - cbn [Viewport.transform snd likeOf finT Viewport.obj_x Viewport.obj_y
         Viewport.obj_k Viewport.obj_r Viewport.x Viewport.y Viewport.k
         Viewport.r].
    unfold stored. rewrite !update_field_same.
    unfold Viewport.uplus. fold (stored this h'). rewrite Hkeep, Hst.
    cbn [finT Viewport.x Viewport.y Viewport.k Viewport.r].
    unfold MIN_K, MAX_K.
    rewrite numClamp_fin, numWrap_fin, (clamp_inside Hk), (wrapped_inside Ha).
    reflexivity.
  - pose proof (constructor_stored (Some (likeOf (finT tx ty tk ta))) d h')
      as Hnew.
    destruct (Viewport.constructor _ d h') as [new h''].
    rewrite Hnew.
    cbn [Viewport.opt_field likeOf finT Viewport.obj_x Viewport.obj_y
         Viewport.obj_k Viewport.obj_r Viewport.x Viewport.y Viewport.k
         Viewport.r or_default].
    rewrite (truthy_fin Hk0).
    unfold MIN_K, MAX_K. rewrite numClamp_fin, (clamp_inside Hk).
    assert (Hx : (if truthy (Fin tx) then Fin tx else Fin 0) = Fin tx).
    { destruct (truthy (Fin tx)) eqn:Ht; [reflexivity |].
      apply truthy_fin_inv in Ht. subst. reflexivity. }
    assert (Hy : (if truthy (Fin ty) then Fin ty else Fin 0) = Fin ty).
    { destruct (truthy (Fin ty)) eqn:Ht; [reflexivity |].
      apply truthy_fin_inv in Ht. subst. reflexivity. }
    assert (Hr : (if truthy (Fin ta) then Fin ta else Fin 0) = Fin ta).
    { destruct (truthy (Fin ta)) eqn:Ht; [reflexivity |].
      apply truthy_fin_inv in Ht. subst. reflexivity. }
    rewrite Hx, Hy, Hr, numWrap_fin, (wrapped_inside Ha). reflexivity.
Qed.

Lemma heap1_allocated d tr :
  Heap.allocated (heap1 tr) (Viewport._transform (viewport0 d)).
Proof. unfold Heap.allocated, heap1, Heap.alloc, viewport0. simpl. lia. Qed.

Lemma spec_valid_example :
  @Valid spec_bounds (finT 10 20 (256 / PI) 1).
Proof.
  apply Valid_intro; [exact spec_default_scale_valid | exact one_is_rotation].
Qed.

Lemma transform_copy_reproduces_witness :
  let this := viewport0 (fin2 (800, 600)) in
  let h := heap1 (finT 10 20 (256 / PI) 1) in
  exists (p : Heap.ref) (h' : Viewport.heap),
    @Viewport.transform spec_bounds this h None = (Viewport.Got p, h') /\
    stored this
      (snd (@Viewport.transform spec_bounds this h'
              (Some (likeOf (Heap.get h' p)))))
    = stored this h.
Proof.
  intros this h.
  destruct (@transform_copy_reproduces spec_bounds spec_bounds_ok this h None
              (heap1_allocated _ _) spec_valid_example)
    as (p & h' & Hcall & Hback & _).
  exists p, h'. split; assumption.
Defined.

(** X6: every viewport has a [Transform] object of its own.  A viewport
    built while another one exists gets a different object, and neither
    building it nor any setter called on it changes the [Transform] of
    the other. *)
Theorem viewports_do_not_share `{B : Bounds} :
  forall (this : Viewport.t) (h : Viewport.heap)
         (tr : option Viewport.TransformLike) (d : option Vec2),
    Heap.allocated h (Viewport._transform this) ->
    let '(new, h') := Viewport.constructor tr d h in
    Viewport._transform new <> Viewport._transform this /\
    stored this h' = stored this h /\
    (forall v, stored this (snd (Viewport.translate new h' (Some v)))
               = stored this h) /\
    (forall v, stored this (snd (Viewport.scale new h' (Some v)))
               = stored this h) /\
    (forall v, stored this (snd (Viewport.rotate new h' (Some v)))
               = stored this h) /\
    (forall o, stored this (snd (Viewport.transform new h' (Some o)))
               = stored this h).
Proof.
  intros this h tr d Halloc.
  unfold Viewport.constructor.
  set (t0 := {| Viewport.x := _ |}).
  cbn [Heap.alloc].
  set (h' := {| Heap.cells := _ |}).
  cbn [Viewport._transform].
  unfold Heap.allocated in Halloc.
  assert (Hne : Viewport._transform this <> Heap.next h) by lia.
  assert (Hold : stored this h' = stored this h).
  { unfold stored. apply (@get_alloc_old _ h t0). exact Halloc. }
  split; [auto |]. split; [exact Hold |].
  unfold stored in *.
  repeat split; intros; cbn [Viewport.translate Viewport.scale Viewport.rotate
                               Viewport.transform snd Viewport._transform].
  - rewrite get_set_other by assumption. exact Hold.
  - rewrite get_set_other by assumption. exact Hold.
  - rewrite get_set_other by assumption. exact Hold.
  - rewrite !update_field_other by assumption. exact Hold.
Qed.

Lemma viewports_do_not_share_witness :
  let this := viewport0 (fin2 (800, 600)) in
  let h := heap1 (finT 10 20 (256 / PI) 1) in
  let '(new, h') := @Viewport.constructor spec_bounds None None h in
  Viewport._transform new <> Viewport._transform this /\
  stored this (snd (@Viewport.scale spec_bounds new h' (Some (Fin 1))))
  = finT 10 20 (256 / PI) 1.
Proof.
  intros this h.
  pose proof (@viewports_do_not_share spec_bounds this h None None
                (heap1_allocated _ _)) as Hshare.
  destruct (@Viewport.constructor spec_bounds None None h) as [new h'].
  destruct Hshare as (Hne & _ & _ & Hscale & _).
  split; [exact Hne |]. rewrite Hscale. reflexivity.
Defined.

(** X7: the dimensions setter stores, for each component, the least
    integer that is not below it; [dimensions ()] then returns that pair,
    and setting it again changes nothing.  The [Transform] is not
    touched. *)
Theorem dimensions_set_then_get :
  forall (this : Viewport.t) (h : Viewport.heap) (w h_ : R),
    exists (W H : Z) (this' : Viewport.t),
      Viewport.dimensions this h (Some (fin2 (w, h_)))
      = (Viewport.This this', h) /\
      IZR W - 1 < w <= IZR W /\ IZR H - 1 < h_ <= IZR H /\
      Viewport.dimensions this' h None
      = (Viewport.Got (fin2 (IZR W, IZR H)), h) /\
      Viewport.dimensions this' h (Some (fin2 (IZR W, IZR H)))
      = (Viewport.This this', h) /\
      Viewport._transform this' = Viewport._transform this.
Proof.
  intros this h w h_.
  exists (Zceil w), (Zceil h_).
  eexists. split; [reflexivity |].
  split; [apply Zceil_bound |]. split; [apply Zceil_bound |].
  split; [reflexivity |]. split; [| reflexivity].
  cbn [Viewport.dimensions]. unfold Viewport.uplus, vecCeil, fin2.
  cbn [fst snd Math.ceil Viewport._transform]. rewrite !ZceilZ. reflexivity.
Qed.

(* ================================================================= *)
(** * The invariant of the [Transform] *)

Lemma transform_set_stored `{B : Bounds} this h o :
  stored this (snd (Viewport.transform this h (Some o)))
  = {| Viewport.x := match Viewport.obj_x o with
                     | Some v => v
                     | None => Viewport.x (stored this h)
                     end;
       Viewport.y := match Viewport.obj_y o with
                     | Some v => v
                     | None => Viewport.y (stored this h)
                     end;
       Viewport.k := match Viewport.obj_k o with
                     | Some v => numClamp v MIN_K MAX_K
                     | None => Viewport.k (stored this h)
                     end;
       Viewport.r := match Viewport.obj_r o with
                     | Some v => numWrap v (Fin 0) TAU
                     | None => Viewport.r (stored this h)
                     end |}.
Proof.
  cbn [Viewport.transform snd]. unfold stored.
  rewrite !update_field_same.
  destruct (Heap.get h (Viewport._transform this)) as [x0 y0 k0 r0].
  unfold Viewport.uplus.
  destruct (Viewport.obj_x o), (Viewport.obj_y o),
           (Viewport.obj_k o), (Viewport.obj_r o); reflexivity.
Qed.

Lemma finite_opt_inv f :
  finite_opt f -> f = None \/ exists v, f = Some (Fin v).
Proof.
  destruct f as [[v | | |] |]; simpl; intro Hf; try discriminate.
  - right. exists v. reflexivity.
  - left. reflexivity.
Qed.

(** X8: a viewport built from fields that are absent or finite satisfies
    the invariant of the data model: its four fields are finite, the
    scale lies in [[MIN_K, MAX_K]] and the rotation in [[0, 2 pi)]; the
    viewport built without argument has the [Transform]
    [(0, 0, clamp (256/pi), 0)]. *)
Theorem constructor_establishes_invariant `{B : Bounds} :
  BoundsOk B ->
  forall (o : Viewport.TransformLike) (d : option Vec2) (h : Viewport.heap),
    finite_opt (Viewport.obj_x o) -> finite_opt (Viewport.obj_y o) ->
    finite_opt (Viewport.obj_k o) -> finite_opt (Viewport.obj_r o) ->
    (let '(this, h') := Viewport.constructor (Some o) d h in
     Valid (stored this h'))
    /\
    (let '(this, h') := Viewport.constructor None d h in
     Valid (stored this h') /\
     stored this h' = finT 0 0 (Rmax min_k (Rmin (256 / PI) max_k)) 0).
Proof.
  intros ok o d h Hx Hy Hk Hr. split.
  - apply (constructor_valid ok o d h Hx Hy Hk Hr).
  - pose proof (constructor_stored None d h) as Hst.
    destruct (Viewport.constructor None d h) as [this h'].
    assert (Heq : stored this h'
                  = finT 0 0 (Rmax min_k (Rmin (256 / PI) max_k)) 0).
    { rewrite Hst. cbn [Viewport.opt_field or_default].
      rewrite default_scale. unfold MIN_K, MAX_K.
      rewrite numClamp_fin, numWrap_fin, wrapped_zero. reflexivity. }
    split; [| exact Heq].
    rewrite Heq. apply Valid_intro; [apply (scale_clamped ok) |].
    pose proof PI_RGT_0. lra.
Qed.

Lemma constructor_establishes_invariant_witness :
  let '(this, h') :=
    @Viewport.constructor spec_bounds
      (Some {| Viewport.obj_x := Some (Fin 20); Viewport.obj_y := None;
               Viewport.obj_k := Some (Fin (-5));
               Viewport.obj_r := Some (Fin 7) |})
      None (Heap.empty (finT 0 0 0 0)) in
  @Valid spec_bounds (stored this h').
Proof.
  apply (@constructor_establishes_invariant spec_bounds spec_bounds_ok
           {| Viewport.obj_x := Some (Fin 20); Viewport.obj_y := None;
              Viewport.obj_k := Some (Fin (-5));
              Viewport.obj_r := Some (Fin 7) |}
           None (Heap.empty (finT 0 0 0 0)));
    simpl; trivial.
Defined.

(** X9: every setter keeps the invariant when it is given finite
    values: [translate], [scale], [rotate], and [transform] with any
    choice of fields present. *)
Theorem setters_keep_invariant `{B : Bounds} :
  BoundsOk B ->
  forall (this : Viewport.t) (h : Viewport.heap) (v u : R)
         (o : Viewport.TransformLike),
    Valid (stored this h) ->
    finite_opt (Viewport.obj_x o) -> finite_opt (Viewport.obj_y o) ->
    finite_opt (Viewport.obj_k o) -> finite_opt (Viewport.obj_r o) ->
    Valid (stored this (snd (Viewport.translate this h (Some (fin2 (v, u))))))
    /\ Valid (stored this (snd (Viewport.scale this h (Some (Fin v)))))
    /\ Valid (stored this (snd (Viewport.rotate this h (Some (Fin v)))))
    /\ Valid (stored this (snd (Viewport.transform this h (Some o)))).
Proof.
  intros ok this h v u o Hv Hx Hy Hk Hr.
  destruct (setters_keep_valid ok this h v u Hv) as (Hs & Hro & Htr).
  split; [exact Htr |]. split; [exact Hs |]. split; [exact Hro |].
  rewrite transform_set_stored.
  apply Valid_inv in Hv as (tx & ty & tk & ta & Hst & Hkk & Ha).
  rewrite Hst. cbn [finT Viewport.x Viewport.y Viewport.k Viewport.r].
  destruct (finite_opt_inv _ Hx) as [-> | [vx ->]];
    destruct (finite_opt_inv _ Hy) as [-> | [vy ->]];
    destruct (finite_opt_inv _ Hk) as [-> | [vk ->]];
    destruct (finite_opt_inv _ Hr) as [-> | [vr ->]];
    unfold MIN_K, MAX_K; rewrite ?numClamp_fin, ?numWrap_fin;
    apply Valid_intro;
    first [assumption | apply (scale_clamped ok) | apply wrapped_range].
Qed.

Lemma setters_keep_invariant_witness :
  let this := viewport0 (fin2 (800, 600)) in
  let h := heap1 (finT 10 20 (256 / PI) 1) in
  @Valid spec_bounds
    (stored this
       (snd (@Viewport.transform spec_bounds this h
               (Some {| Viewport.obj_x := None; Viewport.obj_y := None;
                        Viewport.obj_k := Some (Fin 0);
                        Viewport.obj_r := Some (Fin (-1)) |})))).
Proof.
  intros this h.
  apply (@setters_keep_invariant spec_bounds spec_bounds_ok this h 0 0
           {| Viewport.obj_x := None; Viewport.obj_y := None;
              Viewport.obj_k := Some (Fin 0);
              Viewport.obj_r := Some (Fin (-1)) |}
           spec_valid_example); simpl; trivial.
Defined.

(* ================================================================= *)
(** * Further properties of the projection *)

Lemma clampedLat_rad `{B : Bounds} lat :
  min_phi <= max_phi ->
  clampedLat lat * (PI / 180) = clampedPhi lat.
Proof.
  intro Hord. pose proof PI_RGT_0 as Hpi.
  unfold clampedLat, clampedPhi.
  assert (Hf : 0 < PI / 180) by lra.
  assert (E1 : min_phi * (180 / PI) * (PI / 180) = min_phi) by (field; lra).
  assert (E2 : max_phi * (180 / PI) * (PI / 180) = max_phi) by (field; lra).
  set (lo := min_phi * (180 / PI)) in *.
  set (hi := max_phi * (180 / PI)) in *.
  assert (Hlohi : lo <= hi) by nra.
  destruct (Rle_lt_dec lat lo) as [Hlow | Hlow].
  - rewrite (clamp_below Hlohi Hlow).
    rewrite clamp_below; [lra | assumption | nra].
  - destruct (Rle_lt_dec hi lat) as [Hhigh | Hhigh].
    + rewrite (clamp_above Hlohi Hhigh).
      rewrite clamp_above; [lra | assumption | nra].
    + rewrite clamp_inside by lra.
      rewrite clamp_inside; [reflexivity | nra].
Qed.

Lemma clampedPhi_idem `{B : Bounds} lat :
  min_phi <= max_phi ->
  clampedPhi (clampedLat lat) = clampedPhi lat.
Proof.
  intro Hord. unfold clampedPhi at 1.
  rewrite (clampedLat_rad lat Hord).
  apply clamp_inside. apply clamp_bounds. assumption.
Qed.

(** X10: [project] sees the latitude only through the clamp: a location
    and the same location with its latitude brought into the latitude
    bounds project to the same point, with or without rotation.  Every
    latitude at or beyond a bound projects as the bound itself. *)
Theorem project_sees_clamped_latitude `{B : Bounds} :
  BoundsOk B ->
  forall (this : Viewport.t) (h : Viewport.heap) (lon lat : R)
         (includeRotation : bool),
    Viewport.project this h (fin2 (lon, lat)) includeRotation
    = Viewport.project this h (fin2 (lon, clampedLat lat)) includeRotation.
Proof.
  intros ok this h lon lat incl.
  pose proof (clampedPhi_idem lat (phi_ordered ok)) as Hidem.
  unfold Viewport.project.
  cbn [fin2 fst snd]. unfold DEG2RAD, MIN_PHI, MAX_PHI. cbn [mul].
  rewrite !numClamp_fin.
  fold (clampedPhi lat). fold (clampedPhi (clampedLat lat)).
  rewrite Hidem. reflexivity.
Qed.

Lemma project_sees_clamped_latitude_witness :
  let this := viewport0 (fin2 (800, 600)) in
  let h := heap1 (finT 10 20 (256 / PI) 1) in
  @Viewport.project spec_bounds this h (fin2 (12, 90)) true
  = @Viewport.project spec_bounds this h
      (fin2 (12, @clampedLat spec_bounds 90)) true.
Proof.
  intros this h.
  apply (@project_sees_clamped_latitude spec_bounds spec_bounds_ok).
Defined.

Lemma mercatorY_monotone phi1 phi2 :
  - (PI / 2) < phi1 -> phi1 <= phi2 -> phi2 < PI / 2 ->
  ln (tan ((PI / 2 + phi1) / 2)) <= ln (tan ((PI / 2 + phi2) / 2)).
Proof.
  intros H1 H12 H2.
  assert (I1 : - (PI / 2) < phi1 < PI / 2) by lra.
  assert (I2 : - (PI / 2) < phi2 < PI / 2) by lra.
  pose proof (gd_mercatorY I1) as G1. pose proof (gd_mercatorY I2) as G2.
  set (m1 := ln (tan ((PI / 2 + phi1) / 2))) in *.
  set (m2 := ln (tan ((PI / 2 + phi2) / 2))) in *.
  destruct (Rle_lt_dec m1 m2) as [Hle | Hlt]; [assumption |].
  apply gd_increasing in Hlt. lra.
Qed.

Lemma clampedPhi_monotone `{B : Bounds} lat1 lat2 :
  lat1 <= lat2 -> clampedPhi lat1 <= clampedPhi lat2.
Proof.
  intro Hle. pose proof PI_RGT_0 as Hpi. unfold clampedPhi.
  assert (lat1 * (PI / 180) <= lat2 * (PI / 180)) by nra.
  apply Rmax_lub; [apply Rmax_l |].
  apply Rle_trans with (2 := Rmax_r _ _).
  apply Rmin_glb; [| apply Rmin_r].
  apply Rle_trans with (1 := Rmin_l _ _). assumption.
Qed.

(** X11: east is to the right and north is up.  Under the invariant,
    without rotation, a location further east never projects further
    left, and a location further north never projects further down (the
    screen y grows downwards). *)
Theorem project_keeps_orientation `{B : Bounds} :
  BoundsOk B ->
  forall (this : Viewport.t) (h : Viewport.heap) (lon1 lat1 lon2 lat2 : R),
    Valid (stored this h) ->
    lon1 <= lon2 -> lat1 <= lat2 ->
    exists X1 Y1 X2 Y2 : R,
      Viewport.project this h (fin2 (lon1, lat1)) false = fin2 (X1, Y1) /\
      Viewport.project this h (fin2 (lon2, lat2)) false = fin2 (X2, Y2) /\
      X1 <= X2 /\ Y2 <= Y1.
Proof.
  intros ok this h lon1 lat1 lon2 lat2 Hv Hlon Hlat.
  apply Valid_inv in Hv as (tx & ty & tk & ta & Hst & Hk & Ha).
  pose proof (min_k_pos ok) as Hpos.
  pose proof PI_RGT_0 as Hpi.
  rewrite (project_fin ok this h lon1 lat1 Hst).
  rewrite (project_fin ok this h lon2 lat2 Hst).
  do 4 eexists. split; [reflexivity |]. split; [reflexivity |].
  pose proof (clampedPhi_inside ok lat1) as [I1 _].
  pose proof (clampedPhi_inside ok lat2) as [_ I2].
  pose proof (mercatorY_monotone I1 (clampedPhi_monotone Hlat) I2) as Hm.
  split.
  - assert (lon1 * (PI / 180) <= lon2 * (PI / 180)) by nra. nra.
  - nra.
Qed.

Lemma project_keeps_orientation_witness :
  let this := viewport0 (fin2 (800, 600)) in
  let h := heap1 (finT 10 20 (256 / PI) 1) in
  exists X1 Y1 X2 Y2 : R,
    @Viewport.project spec_bounds this h (fin2 (0, 0)) false = fin2 (X1, Y1) /\
    @Viewport.project spec_bounds this h (fin2 (10, 50)) false
    = fin2 (X2, Y2) /\
    X1 <= X2 /\ Y2 <= Y1.
Proof.
  intros this h.
  apply (@project_keeps_orientation spec_bounds spec_bounds_ok this h
           0 0 10 50 spec_valid_example); lra.
Defined.

(** X12: for any latitude at all, going to the screen and back gives the
    longitude unchanged and the latitude clamped to the latitude bounds,
    with or without rotation (the bounds lying inside the square Mercator
    world). *)
Theorem unproject_project_clamps `{B : Bounds} :
  BoundsOk B -> BoundsSquare B ->
  forall (this : Viewport.t) (h : Viewport.heap) (w h_ lon lat : R)
         (includeRotation : bool),
    Valid (stored this h) ->
    Viewport._dimensions this = fin2 (w, h_) ->
    Viewport.unproject this h
      (Viewport.project this h (fin2 (lon, lat)) includeRotation)
      includeRotation
    = fin2 (lon, clampedLat lat).
Proof.
  intros ok sq this h w h_ lon lat incl Hv Hdim.
  apply Valid_inv in Hv as (tx & ty & tk & ta & Hst & Hk & Ha).
  pose proof (valid_scale_nonzero ok Hk) as Hk0.
  pose proof PI_RGT_0 as Hpi.
  rewrite (project_fin_rot ok this h lon lat incl Hst Hdim).
  rewrite fin2_eta.
  rewrite (unproject_fin_rot this h _ _ incl Hk0 Hst Hdim).
  rewrite <- surjective_pairing.
  rewrite rotateAbout_back. cbn [fst snd].
  rewrite <- (clampedLat_rad lat (phi_ordered ok)).
  pose proof (clampedPhi_inside ok lat) as Hin.
  rewrite <- (clampedLat_rad lat (phi_ordered ok)) in Hin.
  assert (Hsq : gd (- PI) <= clampedLat lat * (PI / 180) <= gd PI).
  { rewrite (clampedLat_rad lat (phi_ordered ok)).
    destruct sq as [Hs1 Hs2].
    pose proof (clamp_bounds (lat * (PI / 180)) (phi_ordered ok)) as [C1 C2].
    unfold clampedPhi, gd. lra. }
  set (phi := clampedLat lat * (PI / 180)) in *.
  pose proof (mercatorY_in_square Hsq) as Hm.
  unfold fin2. cbn [fst snd]. f_equal; f_equal.
  - field. split; lra.
  - unfold unprojectLat.
    replace ((ty - (ty - ln (tan ((PI / 2 + phi) / 2)) * tk)) / tk)
      with (ln (tan ((PI / 2 + phi) / 2))) by (field; assumption).
    rewrite clamp_inside by assumption.
    rewrite gd_mercatorY by assumption.
    unfold phi. field. lra.
Qed.

Lemma unproject_project_clamps_witness :
  let this := viewport0 (fin2 (800, 600)) in
  let h := heap1 (finT 10 20 (256 / PI) 1) in
  @Viewport.unproject this h
    (@Viewport.project spec_bounds this h (fin2 (200, 89)) true) true
  = fin2 (200, @clampedLat spec_bounds 89).
Proof.
  intros this h.
  apply (@unproject_project_clamps spec_bounds spec_bounds_ok
           spec_bounds_square this h 800 600 200 89 true spec_valid_example).
  reflexivity.
Defined.

(** X13: the other way round.  When the latitude bounds reach the edges
    of the square Mercator world, a screen point whose Mercator Y (after
    the rotation is undone) lies within [[-pi, pi]] comes back unchanged
    from [unproject] followed by [project], with or without rotation. *)
Theorem project_unproject_point `{B : Bounds} :
  BoundsOk B ->
  min_phi <= gd (- PI) -> gd PI <= max_phi ->
  forall (this : Viewport.t) (h : Viewport.heap) (w h_ tx ty tk ta px py : R)
         (includeRotation : bool),
    stored this h = finT tx ty tk ta ->
    min_k <= tk <= max_k ->
    Viewport._dimensions this = fin2 (w, h_) ->
    - PI <= (ty - snd (rotateAbout w h_ (- ta) includeRotation (px, py))) / tk
         <= PI ->
    Viewport.project this h
      (Viewport.unproject this h (fin2 (px, py)) includeRotation)
      includeRotation
    = fin2 (px, py).
Proof.
  intros ok Hlo Hhi this h w h_ tx ty tk ta px py incl Hst Hk Hdim Hband.
  pose proof (valid_scale_nonzero ok Hk) as Hk0.
  pose proof PI_RGT_0 as Hpi.
  rewrite (unproject_fin_rot this h px py incl Hk0 Hst Hdim).
  rewrite (project_fin_rot ok this h _ _ incl Hst Hdim).
  destruct (rotateAbout w h_ (- ta) incl (px, py)) as [qx qy] eqn:Hq.
  cbn [fst snd] in *.
  assert (Hback : rotateAbout w h_ ta incl (qx, qy) = (px, py)).
  { rewrite <- Hq. rewrite <- (Ropp_involutive ta) at 1.
    apply rotateAbout_back. }
  rewrite <- Hback. do 2 f_equal. apply f_equal2.
  - field. split; lra.
  - unfold unprojectLat. rewrite (clamp_inside Hband).
    set (my := (ty - qy) / tk) in *.
    assert (Hgd : gd (- PI) <= gd my <= gd PI)
      by (split; apply gd_monotone; lra).
    assert (Hphi : clampedPhi (gd my * (180 / PI)) = gd my).
    { unfold clampedPhi.
      replace (gd my * (180 / PI) * (PI / 180)) with (gd my) by (field; lra).
      apply clamp_inside. lra. }
    rewrite Hphi.
    pose proof (gd_inside my) as Hin.
    assert (Hm : ln (tan ((PI / 2 + gd my) / 2)) = my).
    { pose proof (mercatorY_between (conj (Rle_refl (gd my)) (Rle_refl (gd my))))
        as [M1 M2]. lra. }
    rewrite Hm. unfold my. field. assumption.
Qed.

Lemma project_unproject_point_witness :
  let this := viewport0 (fin2 (800, 600)) in
  let h := heap1 (finT 10 20 (256 / PI) 0) in
  @Viewport.project spec_bounds this h
    (Viewport.unproject this h (fin2 (300, 20)) false) false
  = fin2 (300, 20).
Proof.
  intros this h.
  assert (Hband : - PI <= (20 - 20) / (256 / PI) <= PI).
  { pose proof PI_RGT_0. unfold Rdiv. rewrite Rminus_diag, Rmult_0_l. lra. }
  apply (@project_unproject_point spec_bounds spec_bounds_ok
           (Rle_refl _) (Rle_refl _) this h 800 600 10 20 (256 / PI) 0 300 20
           false eq_refl spec_default_scale_valid eq_refl Hband).
Defined.

(** X14: moving the translation by [(dx, dy)] moves every projected
    point by [(dx, dy)] (without rotation). *)
Theorem translate_shifts_projection `{B : Bounds} :
  BoundsOk B ->
  forall (this : Viewport.t) (h : Viewport.heap)
         (tx ty tk ta lon lat dx dy : R),
    stored this h = finT tx ty tk ta ->
    let h' :=
      snd (Viewport.translate this h (Some (fin2 (tx + dx, ty + dy)))) in
    exists X Y : R,
      Viewport.project this h (fin2 (lon, lat)) false = fin2 (X, Y) /\
      Viewport.project this h' (fin2 (lon, lat)) false
      = fin2 (X + dx, Y + dy).
Proof.
  intros ok this h tx ty tk ta lon lat dx dy Hst h'.
  assert (Hst' : stored this h' = finT (tx + dx) (ty + dy) tk ta).
  { unfold h'. cbn [Viewport.translate snd]. unfold stored in *.
    rewrite get_set_same, Hst. reflexivity. }
  rewrite (project_fin ok this h lon lat Hst).
  rewrite (project_fin ok this h' lon lat Hst').
  do 2 eexists. split; [reflexivity |].
  unfold fin2. cbn [fst snd]. f_equal; f_equal; ring.
Qed.

Lemma translate_shifts_projection_witness :
  let this := viewport0 (fin2 (800, 600)) in
  let h := heap1 (finT 10 20 (256 / PI) 1) in
  let h' := snd (Viewport.translate this h (Some (fin2 (10 + 5, 20 + 7)))) in
  exists X Y : R,
    @Viewport.project spec_bounds this h (fin2 (3, 4)) false = fin2 (X, Y) /\
    @Viewport.project spec_bounds this h' (fin2 (3, 4)) false
    = fin2 (X + 5, Y + 7).
Proof.
  intros this h.
  apply (@translate_shifts_projection spec_bounds spec_bounds_ok this h
           10 20 (256 / PI) 1 3 4 5 7 eq_refl).
Defined.

(** X15: changing the scale zooms about the translation point: after
    [scale (v)] with [v] within the scale bounds, the offset of every
    projected point from [(x, y)] is multiplied by [v / k] (without
    rotation). *)
Theorem scale_zooms_about_translation `{B : Bounds} :
  BoundsOk B ->
  forall (this : Viewport.t) (h : Viewport.heap)
         (tx ty tk ta lon lat v : R),
    stored this h = finT tx ty tk ta ->
    min_k <= v <= max_k ->
    let h' := snd (Viewport.scale this h (Some (Fin v))) in
    exists X Y X' Y' : R,
      Viewport.project this h (fin2 (lon, lat)) false = fin2 (X, Y) /\
      Viewport.project this h' (fin2 (lon, lat)) false = fin2 (X', Y') /\
      (X' - tx) * tk = (X - tx) * v /\
      (Y' - ty) * tk = (Y - ty) * v.
Proof.
  intros ok this h tx ty tk ta lon lat v Hst Hv h'.
  assert (Hst' : stored this h' = finT tx ty v ta).
  { unfold h'. cbn [Viewport.scale snd]. unfold stored in *.
    rewrite get_set_same, Hst. unfold Viewport.uplus, MIN_K, MAX_K.
    rewrite numClamp_fin, (clamp_inside Hv). reflexivity. }
  rewrite (project_fin ok this h lon lat Hst).
  rewrite (project_fin ok this h' lon lat Hst').
  do 4 eexists. split; [reflexivity |]. split; [reflexivity |].
  split; ring.
Qed.

Lemma scale_zooms_about_translation_witness :
  let this := viewport0 (fin2 (800, 600)) in
  let h := heap1 (finT 10 20 (256 / PI) 1) in
  let h' := snd (@Viewport.scale spec_bounds this h (Some (Fin (256 / PI)))) in
  exists X Y X' Y' : R,
    @Viewport.project spec_bounds this h (fin2 (3, 4)) false = fin2 (X, Y) /\
    @Viewport.project spec_bounds this h' (fin2 (3, 4)) false
    = fin2 (X', Y') /\
    (X' - 10) * (256 / PI) = (X - 10) * (256 / PI) /\
    (Y' - 20) * (256 / PI) = (Y - 20) * (256 / PI).
Proof.
  intros this h.
  apply (@scale_zooms_about_translation spec_bounds spec_bounds_ok this h
           10 20 (256 / PI) 1 3 4 (256 / PI) eq_refl spec_default_scale_valid).
Defined.

Lemma rotateAbout_distance w h a incl p :
  dist (rotateAbout w h a incl p) (w * 0.5, h * 0.5)
  = dist p (w * 0.5, h * 0.5).
Proof.
  unfold rotateAbout.
  destruct (incl && (if Req_dec_T a 0 then false else true)); [| reflexivity].
  destruct p as [px py]. unfold dist. cbn [fst snd].
  pose proof (sin2_cos2 a) as Hsc. unfold Rsqr in Hsc.
  f_equal. nsatz.
Qed.

Lemma rotateAbout_centre w h a incl :
  rotateAbout w h a incl (w * 0.5, h * 0.5) = (w * 0.5, h * 0.5).
Proof.
  unfold rotateAbout.
  destruct (incl && (if Req_dec_T a 0 then false else true)); [| reflexivity].
  cbn [fst snd]. f_equal; ring.
Qed.

(** X16: the rotation of [project] and [unproject] is a rotation about
    the centre of the screen, [center ()]: a projected point keeps its
    distance to the centre when the rotation is included, and the centre
    itself unprojects to the same location with and without rotation. *)
Theorem rotation_is_about_center `{B : Bounds} :
  BoundsOk B ->
  forall (this : Viewport.t) (h : Viewport.heap) (w h_ tx ty tk ta lon lat : R),
    stored this h = finT tx ty tk ta ->
    min_k <= tk <= max_k ->
    Viewport._dimensions this = fin2 (w, h_) ->
    exists C P Q : R * R,
      Viewport.center this = fin2 C /\
      Viewport.project this h (fin2 (lon, lat)) false = fin2 P /\
      Viewport.project this h (fin2 (lon, lat)) true = fin2 Q /\
      dist Q C = dist P C /\
      Viewport.unproject this h (fin2 C) true
      = Viewport.unproject this h (fin2 C) false.
Proof.
  intros ok this h w h_ tx ty tk ta lon lat Hst Hk Hdim.
  pose proof (valid_scale_nonzero ok Hk) as Hk0.
  exists (w * 0.5, h_ * 0.5).
  rewrite (project_fin_rot ok this h lon lat false Hst Hdim).
  rewrite (project_fin_rot ok this h lon lat true Hst Hdim).
  do 2 eexists.
  split; [unfold Viewport.center; rewrite Hdim; reflexivity |].
  split; [reflexivity |]. split; [reflexivity |].
  split.
  - rewrite rotateAbout_distance.
    unfold rotateAbout. cbn [andb]. reflexivity.
  - rewrite !(unproject_fin_rot this h _ _ _ Hk0 Hst Hdim).
    rewrite !rotateAbout_centre. reflexivity.
Qed.

Lemma rotation_is_about_center_witness :
  let this := viewport0 (fin2 (800, 600)) in
  let h := heap1 (finT 10 20 (256 / PI) 1) in
  exists C P Q : R * R,
    Viewport.center this = fin2 C /\
    @Viewport.project spec_bounds this h (fin2 (3, 4)) false = fin2 P /\
    @Viewport.project spec_bounds this h (fin2 (3, 4)) true = fin2 Q /\
    dist Q C = dist P C /\
    Viewport.unproject this h (fin2 C) true
    = Viewport.unproject this h (fin2 C) false.
Proof.
  intros this h.
  apply (@rotation_is_about_center spec_bounds spec_bounds_ok this h
           800 600 10 20 (256 / PI) 1 3 4 eq_refl spec_default_scale_valid
           eq_refl).
Defined.

(* ================================================================= *)
(** * Further properties of the visible region *)

(** A point that is a weighted mean of [A] and [B] with weights that are
    not negative lies on the segment from [A] to [B]. *)
Lemma weighted_mean_onSegment (P A Bq : R * R) (alpha beta : R) :
  0 <= alpha -> 0 <= beta ->
  alpha * fst A + beta * fst Bq = (alpha + beta) * fst P ->
  alpha * snd A + beta * snd Bq = (alpha + beta) * snd P ->
  (alpha + beta = 0 -> A = P) ->
  onSegment P A Bq.
Proof.
  intros Ha Hb Hx Hy Hdeg.
  destruct (Req_dec_T (alpha + beta) 0) as [Hz | Hnz].
  - exists 0. rewrite <- (Hdeg Hz). split; [lra |]. split; ring.
  - exists (beta / (alpha + beta)).
    assert (Hpos : 0 < alpha + beta) by lra.
    split.
    + split.
      * apply Rmult_le_pos; [assumption |]. left.
        apply Rinv_0_lt_compat. assumption.
      * apply Rmult_le_reg_r with (alpha + beta); [assumption |].
        unfold Rdiv. rewrite Rmult_assoc, Rinv_l by assumption. lra.
    + split.
      * apply Rmult_eq_reg_l with (alpha + beta); [| assumption].
        rewrite <- Hx. field. assumption.
      * apply Rmult_eq_reg_l with (alpha + beta); [| assumption].
        rewrite <- Hy. field. assumption.
Qed.

(** X17: the visible polygon of a rotated viewport contains the screen.
    For dimensions that are not negative and a rotation other than 0,
    the ring is [E F G H E] with the four corners of the screen on its
    four sides, [(0, 0)] on [EF], [(0, h)] on [FG], [(w, h)] on [GH] and
    [(w, 0)] on [HE], and both diagonals have the centre of the screen
    as their midpoint. *)
Theorem screen_corners_on_polygon_sides :
  forall (this : Viewport.t) (h : Viewport.heap) (w h_ a : R),
    Viewport.r (stored this h) = Fin a ->
    Viewport._dimensions this = fin2 (w, h_) ->
    0 <= w -> 0 <= h_ -> a <> 0 ->
    exists E F G H : R * R,
      Viewport.visiblePolygon this h = map fin2 [E; F; G; H; E] /\
      onSegment (0, 0) E F /\ onSegment (0, h_) F G /\
      onSegment (w, h_) G H /\ onSegment (w, 0) H E /\
      fst E + fst G = w /\ snd E + snd G = h_ /\
      fst F + fst H = w /\ snd F + snd H = h_.
Proof.
  intros this h w h_ a Hrot Hdim Hw Hh Ha.
  do 4 eexists.
  split; [apply (visiblePolygon_rotated this h Hrot Hdim Ha) |].
  destruct (sc_facts a) as (Hs & Hc & Hsc & Hs1 & Hc1).
  set (s := Rabs (sin a)) in *. set (c := Rabs (cos a)) in *.
  assert (Hhc : 0 <= h_ * c) by nra.
  assert (Hws : 0 <= w * s) by nra.
  assert (Hhs : 0 <= h_ * s) by nra.
  assert (Hwc : 0 <= w * c) by nra.
  split; [| split; [| split; [| split]]].
  - apply (@weighted_mean_onSegment (0, 0) _ _ _ _ Hhc Hws); cbn [fst snd].
    + ring.
    + ring.
    + intro Hz. assert (Z1 : h_ * c = 0) by lra. assert (Z2 : w * s = 0) by lra.
      f_equal; [rewrite Z2 | rewrite Z2]; ring.
  - apply (@weighted_mean_onSegment (0, h_) _ _ _ _ Hwc Hhs); cbn [fst snd].
    + clear - Hsc. nsatz.
    + clear - Hsc. nsatz.
    + intro Hz. assert (Z1 : w * c = 0) by lra. assert (Z2 : h_ * s = 0) by lra.
      f_equal; clear - Hsc Z1 Z2; nsatz.
  - apply (@weighted_mean_onSegment (w, h_) _ _ _ _ Hhc Hws); cbn [fst snd].
    + clear - Hsc. nsatz.
    + clear - Hsc. nsatz.
    + intro Hz. assert (Z1 : h_ * c = 0) by lra. assert (Z2 : w * s = 0) by lra.
      f_equal; clear - Hsc Z1 Z2; nsatz.
  - apply (@weighted_mean_onSegment (w, 0) _ _ _ _ Hwc Hhs); cbn [fst snd].
    + clear - Hsc. nsatz.
    + clear - Hsc. nsatz.
    + intro Hz. assert (Z1 : w * c = 0) by lra. assert (Z2 : h_ * s = 0) by lra.
      f_equal; clear - Hsc Z1 Z2; nsatz.
  - cbn [fst snd]. repeat split; ring.
Qed.

Lemma screen_corners_on_polygon_sides_witness :
  let this := viewport0 (fin2 (800, 600)) in
  let h := heap1 (finT 0 0 (256 / PI) 1) in
  exists E F G H : R * R,
    Viewport.visiblePolygon this h = map fin2 [E; F; G; H; E] /\
    onSegment (0, 0) E F /\ onSegment (0, 600) F G /\
    onSegment (800, 600) G H /\ onSegment (800, 0) H E.
Proof.
  intros this h.
  assert (H800 : 0 <= 800) by lra.
  assert (H600 : 0 <= 600) by lra.
  assert (H1 : 1 <> 0) by lra.
  destruct (screen_corners_on_polygon_sides this h eq_refl eq_refl
              H800 H600 H1)
    as (E & F & G & H & Hp & S1 & S2 & S3 & S4 & _).
  exists E, F, G, H. repeat split; assumption.
Defined.

(** X18: what [visibleDimensions ()] returns is never smaller in area
    than the screen: for dimensions [[w, h]] that are not negative and
    any rotation, it returns a finite pair [[W, H]] of numbers that are
    not negative with [w * h <= W * H]. *)
Theorem visible_area_covers_screen :
  forall (this : Viewport.t) (h : Viewport.heap) (w h_ a : R),
    Viewport.r (stored this h) = Fin a ->
    Viewport._dimensions this = fin2 (w, h_) ->
    0 <= w -> 0 <= h_ ->
    exists W H : R,
      Viewport.visibleDimensions this h = fin2 (W, H) /\
      0 <= W /\ 0 <= H /\ w * h_ <= W * H.
Proof.
  intros this h w h_ a Hrot Hdim Hw Hh.
  destruct (Req_dec_T a 0) as [Hz | Hnz].
  - rewrite (visibleDimensions_unrotated this h Hrot Hdim Hz).
    exists w, h_. repeat split; try assumption. lra.
  - rewrite (visibleDimensions_rotated this h Hrot Hdim Hnz).
    destruct (sc_facts a) as (Hs & Hc & Hsc & Hs1 & Hc1).
    set (s := Rabs (sin a)) in *. set (c := Rabs (cos a)) in *.
    pose proof (Zceil_bound (w * c + h_ * s)) as [_ B1].
    pose proof (Zceil_bound (h_ * c + w * s)) as [_ B2].
    set (W := IZR (Zceil (w * c + h_ * s))) in *.
    set (H := IZR (Zceil (h_ * c + w * s))) in *.
    exists W, H.
    assert (P1 : 0 <= w * c + h_ * s) by nra.
    assert (P2 : 0 <= h_ * c + w * s) by nra.
    assert (Hprod : w * h_ <= (w * c + h_ * s) * (h_ * c + w * s)).
    { assert (Hwsc : 0 <= w * w * (s * c)) by
        (apply Rmult_le_pos; [apply Rle_0_sqr | nra]).
      assert (Hhsc : 0 <= h_ * h_ * (s * c)) by
        (apply Rmult_le_pos; [apply Rle_0_sqr | nra]).
      replace ((w * c + h_ * s) * (h_ * c + w * s))
        with (w * h_ * (s * s + c * c) + w * w * (s * c) + h_ * h_ * (s * c))
        by ring.
      rewrite Hsc. lra. }
    split; [reflexivity |]. split; [lra |]. split; [lra |].
    apply Rle_trans with (1 := Hprod).
    apply Rmult_le_compat; assumption.
Qed.

Lemma visible_area_covers_screen_witness :
  let this := viewport0 (fin2 (800, 600)) in
  let h := heap1 (finT 0 0 (256 / PI) 1) in
  exists W H : R,
    Viewport.visibleDimensions this h = fin2 (W, H) /\
    0 <= W /\ 0 <= H /\ 800 * 600 <= W * H.
Proof.
  intros this h.
  assert (H800 : 0 <= 800) by lra.
  assert (H600 : 0 <= 600) by lra.
  apply (visible_area_covers_screen this h eq_refl eq_refl H800 H600).
Defined.

(* ----------------------------------------------------------------- *)
(** ** The extent contains what it was extended by *)

Lemma extend_empty p :
  Extent.extendSelf Extent.constructor (fin2 p)
  = {| Extent.min := fin2 p; Extent.max := fin2 p |}.
Proof. destruct p. reflexivity. Qed.

Lemma inBox_extend e p q :
  inBox e p -> inBox (Extent.extendSelf e (fin2 q)) p.
Proof.
  intros (lox & loy & hix & hiy & Hmin & Hmax & Hx & Hy).
  exists (Rmin lox (fst q)), (Rmin loy (snd q)),
         (Rmax hix (fst q)), (Rmax hiy (snd q)).
  unfold Extent.extendSelf. rewrite Hmin, Hmax.
  split; [reflexivity |]. split; [reflexivity |].
  pose proof (Rmin_l lox (fst q)). pose proof (Rmin_l loy (snd q)).
  pose proof (Rmax_l hix (fst q)). pose proof (Rmax_l hiy (snd q)).
  split; lra.
Qed.

Lemma inBox_extended e p q :
  inBox e p -> inBox (Extent.extendSelf e (fin2 q)) q.
Proof.
  intros (lox & loy & hix & hiy & Hmin & Hmax & Hx & Hy).
  exists (Rmin lox (fst q)), (Rmin loy (snd q)),
         (Rmax hix (fst q)), (Rmax hiy (snd q)).
  unfold Extent.extendSelf. rewrite Hmin, Hmax.
  split; [reflexivity |]. split; [reflexivity |].
  pose proof (Rmin_r lox (fst q)). pose proof (Rmin_r loy (snd q)).
  pose proof (Rmax_r hix (fst q)). pose proof (Rmax_r hiy (snd q)).
  split; lra.
Qed.

Lemma fold_extend_inBox qs :
  forall e p,
    inBox e p ->
    inBox (fold_left Extent.extendSelf (map fin2 qs) e) p /\
    (forall q, In q qs ->
               inBox (fold_left Extent.extendSelf (map fin2 qs) e) q).
Proof.
  induction qs as [| q0 qs IH]; intros e p Hp.
  - split; [exact Hp | intros q []].
  - cbn [map fold_left].
    destruct (IH _ _ (inBox_extend q0 Hp)) as [Hkeep _].
    destruct (IH _ _ (inBox_extended q0 Hp)) as [Hq0 Hrest].
    split; [exact Hkeep |].
    intros q [<- | Hin]; [exact Hq0 | apply Hrest; exact Hin].
Qed.

Lemma boundingBox_contains q0 qs q :
  In q (q0 :: qs) -> inBox (boundingBox (map fin2 (q0 :: qs))) q.
Proof.
  intro Hin. unfold boundingBox. cbn [map fold_left].
  rewrite extend_empty.
  assert (H0 : inBox {| Extent.min := fin2 q0; Extent.max := fin2 q0 |} q0).
  { exists (fst q0), (snd q0), (fst q0), (snd q0).
    cbn [Extent.min Extent.max]. rewrite <- fin2_eta.
    repeat split; lra. }
  destruct (fold_extend_inBox qs H0) as [Hq0 Hrest].
  destruct Hin as [<- | Hin]; [exact Hq0 | apply Hrest; exact Hin].
Qed.

Lemma fold_left_map_arg {A C D} (f : A -> D -> A) (g : C -> D) l a :
  fold_left (fun acc c => f acc (g c)) l a = fold_left f (map g l) a.
Proof.
  revert a. induction l as [| c l IH]; intro a; [reflexivity |].
  cbn [map fold_left]. apply IH.
Qed.

(** The ring of [visiblePolygon] for finite dimensions and rotation. *)
Lemma visiblePolygon_ring this h w h_ a :
  Viewport.r (stored this h) = Fin a ->
  Viewport._dimensions this = fin2 (w, h_) ->
  exists p1 p2 p3 p4 : R * R,
    Viewport.visiblePolygon this h = map fin2 [p1; p2; p3; p4; p1].
Proof.
  intros Hrot Hdim.
  destruct (Req_dec_T a 0) as [Hz | Hnz].
  - subst a. exists (0, 0), (0, h_), (w, h_), (0, w).
    unfold Viewport.visiblePolygon. rewrite Hdim.
    unfold stored in Hrot. cbn [fin2 fst snd]. rewrite Hrot.
    rewrite truthy_zero. reflexivity.
  - do 4 eexists. apply (visiblePolygon_rotated this h Hrot Hdim Hnz).
Qed.

(** X19: [extent ()] contains all it is built from.  For a finite
    [Transform] with a scale other than zero and finite dimensions, every
    vertex of [visiblePolygon ()] unprojects (with rotation) to a finite
    location that lies inside the box returned by [extent ()], whose
    corners are finite. *)
Theorem extent_contains_vertices :
  forall (this : Viewport.t) (h : Viewport.heap) (w h_ tx ty tk ta : R),
    stored this h = finT tx ty tk ta ->
    tk <> 0 ->
    Viewport._dimensions this = fin2 (w, h_) ->
    forall v : Vec2,
      In v (Viewport.visiblePolygon this h) ->
      exists p : R * R,
        Viewport.unproject this h v true = fin2 p /\
        inBox (Viewport.extent this h) p.
Proof.
  intros this h w h_ tx ty tk ta Hst Hk Hdim v Hv.
  assert (Hrot : Viewport.r (stored this h) = Fin ta) by (rewrite Hst; reflexivity).
  destruct (visiblePolygon_ring this h Hrot Hdim) as (p1 & p2 & p3 & p4 & Hpoly).
  set (U := fun q : R * R =>
              ((fst (rotateAbout w h_ (- ta) true (fst q, snd q)) - tx)
               / tk * (180 / PI),
               unprojectLat ty tk
                 (snd (rotateAbout w h_ (- ta) true (fst q, snd q))))).
  assert (HU : forall q, Viewport.unproject this h (fin2 q) true = fin2 (U q)).
  { intro q. rewrite (fin2_eta q).
    rewrite (unproject_fin_rot this h (fst q) (snd q) true Hk Hst Hdim).
    reflexivity. }
  assert (Hext : Viewport.extent this h
                 = boundingBox (map fin2 (map U [p1; p2; p3; p4]))).
  { unfold Viewport.extent, boundingBox. rewrite Hpoly.
    cbn [map removelast].
    rewrite (fold_left_map_arg Extent.extendSelf
               (fun point => Viewport.unproject this h point true)).
    cbn [map]. rewrite !HU. reflexivity. }
  rewrite Hpoly in Hv.
  assert (Hq : exists q, v = fin2 q /\ In q [p1; p2; p3; p4]).
  { cbn [map In] in Hv.
    destruct Hv as [<- | [<- | [<- | [<- | [<- | []]]]]].
    - exists p1. split; [reflexivity | cbn; auto].
    - exists p2. split; [reflexivity | cbn; auto].
    - exists p3. split; [reflexivity | cbn; auto].
    - exists p4. split; [reflexivity | cbn; auto].
    - exists p1. split; [reflexivity | cbn; auto]. }
  destruct Hq as (q & -> & Hin).
  exists (U q). split; [apply HU |].
  rewrite Hext.
  apply (@boundingBox_contains (U p1) (map U [p2; p3; p4]) (U q)).
  change (In (U q) (map U [p1; p2; p3; p4])).
  apply in_map. exact Hin.
Qed.

Lemma extent_contains_vertices_witness :
  let this := viewport0 (fin2 (800, 600)) in
  let h := heap1 (finT 0 0 (256 / PI) 0) in
  exists p : R * R,
    Viewport.unproject this h (fin2 (800, 600)) true = fin2 p /\
    inBox (Viewport.extent this h) p.
Proof.
  intros this h.
  apply (@extent_contains_vertices this h 800 600 0 0 (256 / PI) 0 eq_refl
           default_scale_nonzero eq_refl).
  rewrite (default_polygon this h eq_refl eq_refl).
  right. right. left. reflexivity.
Defined.

(* ================================================================= *)
(** * The legacy projection *)

Lemma legacy_project_fin lx ly lk dims lon lat :
  -90 < lat < 90 ->
  Projection.project (finP lx ly lk dims) (fin2 (lon, lat))
  = fin2 (lon * PI / 180 * lk + lx,
          ly - ln (tan ((PI / 2 + lat * PI / 180) / 2)) * lk).
Proof.
  intros [H1 H2]. pose proof PI_RGT_0 as Hpi.
  unfold Projection.project, Math.PI, finP.
  cbn [fin2 fst snd Projection._k Projection._x Projection._y mul].
  rewrite !div_fin by lra. cbn [add].
  rewrite div_fin by lra.
  assert (Ha : 0 < (PI / 2 + lat * PI / 180) / 2 < PI / 2).
  { split; nra. }
  rewrite tan_fin by (apply Rgt_not_eq; apply cos_gt_0; lra).
  rewrite log_fin by (apply tan_gt_0; lra).
  reflexivity.
Qed.

Lemma legacy_invert_fin lx ly lk dims px py :
  lk <> 0 ->
  Projection.invert (finP lx ly lk dims) (fin2 (px, py))
  = fin2 ((px - lx) / lk * 180 / PI, gd ((ly - py) / lk) * 180 / PI).
Proof.
  intro Hk. pose proof PI_RGT_0 as Hpi.
  unfold Projection.invert, Math.PI, finP.
  cbn [fin2 fst snd Projection._k Projection._x Projection._y sub neg add].
  rewrite !div_fin by assumption.
  cbn [Math.exp Math.atan mul]. rewrite !div_fin by lra.
  cbn [sub neg add mul]. rewrite !div_fin by lra.
  unfold gd, Rminus, Rdiv. reflexivity.
Qed.

(** X20: the legacy [invert] undoes the legacy [project]: for a finite
    projection with a scale other than zero and every latitude strictly
    between -90 and 90 degrees, [invert (project (loc))] is [loc]; no
    latitude is clamped. *)
Theorem legacy_invert_project :
  forall (lx ly lk : R) (dims : list Vec2) (lon lat : R),
    lk <> 0 -> -90 < lat < 90 ->
    Projection.invert (finP lx ly lk dims)
      (Projection.project (finP lx ly lk dims) (fin2 (lon, lat)))
    = fin2 (lon, lat).
Proof.
  intros lx ly lk dims lon lat Hk Hlat. pose proof PI_RGT_0 as Hpi.
  rewrite (legacy_project_fin lx ly lk dims lon Hlat).
  rewrite (legacy_invert_fin lx ly dims _ _ Hk).
  assert (Hphi : - (PI / 2) < lat * PI / 180 < PI / 2).
  { destruct Hlat. split; nra. }
  unfold fin2. cbn [fst snd]. f_equal; f_equal.
  - field. split; lra.
  - replace ((ly - (ly - ln (tan ((PI / 2 + lat * PI / 180) / 2)) * lk)) / lk)
      with (ln (tan ((PI / 2 + lat * PI / 180) / 2))) by (field; assumption).
    rewrite (gd_mercatorY Hphi). field. lra.
Qed.

Lemma legacy_invert_project_witness :
  Projection.invert (finP 10 20 (-3) [])
    (Projection.project (finP 10 20 (-3) []) (fin2 (100, 89)))
  = fin2 (100, 89).
Proof.
  apply legacy_invert_project; lra.
Defined.



Lemma inf_times_not_finite pos v : isFinite (inf_times pos v) = false.
Proof. unfold inf_times. destruct (sgn v), pos; reflexivity. Qed.

(** X22: the legacy [scale] stores whatever it is given, zero included,
    and a zero scale breaks the projection: after [scale (0)], [project]
    sends every location with a latitude strictly between -90 and 90
    degrees to the translation point [(x, y)], and [invert] returns no
    finite longitude for any finite point. *)
Theorem legacy_zero_scale_collapses :
  forall (lx ly lk : R) (dims : list Vec2) (lon lat px py : R),
    -90 < lat < 90 ->
    exists P' : Projection.t,
      Projection.scale (finP lx ly lk dims) (Some (Fin 0))
      = Projection.This P' /\
      Projection.scale P' None = Projection.Got (Fin 0) /\
      Projection.project P' (fin2 (lon, lat)) = fin2 (lx, ly) /\
      isFinite (fst (Projection.invert P' (fin2 (px, py)))) = false.
Proof.
  intros lx ly lk dims lon lat px py Hlat.
  exists (finP lx ly 0 dims).
  split; [reflexivity |]. split; [reflexivity |]. split.
  - rewrite (legacy_project_fin lx ly 0 dims lon Hlat).
    unfold fin2. cbn [fst snd]. f_equal; f_equal; ring.
  - unfold Projection.invert, Math.PI, finP.
    cbn [fin2 fst snd Projection._k Projection._x Projection._y sub neg add].
    unfold div at 2.
    destruct (Req_dec_T 0 0) as [_ | Hne]; [| contradiction Hne; reflexivity].
    pose proof PI_RGT_0 as Hpi.
    unfold inf_times.
    destruct (sgn (px + - lx)); cbn [mul]; unfold inf_times;
      try rewrite (sgn_pos (v := 180)) by lra;
      cbn [div]; try rewrite (sgn_pos Hpi); reflexivity.
Qed.

Lemma legacy_zero_scale_collapses_witness :
  exists P' : Projection.t,
    Projection.scale (finP 10 20 (256 / PI) []) (Some (Fin 0))
    = Projection.This P' /\
    Projection.project P' (fin2 (100, 45)) = fin2 (10, 20) /\
    isFinite (fst (Projection.invert P' (fin2 (300, 400)))) = false.
Proof.
  assert (Hlat : -90 < 45 < 90) by lra.
  destruct (legacy_zero_scale_collapses 10 20 (256 / PI) [] 100 300 400 Hlat)
    as (P' & Hs & _ & Hp & Hi).
  exists P'. repeat split; assumption.
Defined.

(** X23: the accessors of the legacy projection store their argument as
    it is and give it back: [transform (t)] followed by [transform ()]
    returns [t], [translate (v)] followed by [translate ()] returns [v],
    and both leave the dimensions as they were; [transform (t)] is the
    same as [translate ([t.x, t.y])] followed by [scale (t.k)]. *)
Theorem legacy_accessors_round_trip :
  forall (P : Projection.t) (t : Projection.Transform) (v : Vec2),
    (exists P' : Projection.t,
        Projection.transform P (Some t) = Projection.This P' /\
        Projection.transform P' None = Projection.Got t /\
        Projection.dimensions P' None
        = Projection.Got (Projection._dimensions P) /\
        (exists P1 : Projection.t,
            Projection.translate P
              (Some (Projection.x t, Projection.y t)) = Projection.This P1 /\
            Projection.scale P1 (Some (Projection.k t)) = Projection.This P'))
    /\
    (exists P' : Projection.t,
        Projection.translate P (Some v) = Projection.This P' /\
        Projection.translate P' None = Projection.Got v /\
        Projection.scale P' None = Projection.scale P None /\
        Projection.dimensions P' None
        = Projection.Got (Projection._dimensions P)).
Proof.
  intros P [tx ty tk] [v1 v2]. split.
  - eexists. split; [reflexivity |]. split; [reflexivity |].
    split; [reflexivity |].
    eexists. split; reflexivity.
  - eexists. split; [reflexivity |]. repeat split.
Qed.

(** X24: where no clamp is active the two classes compute the same.
    For the same finite translation and scale, [Viewport.project] without
    rotation equals the legacy [project] on every location whose latitude
    lies within the latitude bounds, and [Viewport.unproject] without
    rotation equals the legacy [invert] on every point whose Mercator Y
    lies within [[-pi, pi]]. *)
Theorem viewport_agrees_with_legacy `{B : Bounds} :
  BoundsOk B ->
  forall (this : Viewport.t) (h : Viewport.heap) (tx ty tk ta : R)
         (dims : list Vec2) (lon lat px py : R),
    stored this h = finT tx ty tk ta ->
    tk <> 0 ->
    min_phi * (180 / PI) <= lat <= max_phi * (180 / PI) ->
    - PI <= (ty - py) / tk <= PI ->
    Viewport.project this h (fin2 (lon, lat)) false
    = Projection.project (finP tx ty tk dims) (fin2 (lon, lat))
    /\
    Viewport.unproject this h (fin2 (px, py)) false
    = Projection.invert (finP tx ty tk dims) (fin2 (px, py)).
Proof.
  intros ok this h tx ty tk ta dims lon lat px py Hst Hk Hlat Hband.
  pose proof PI_RGT_0 as Hpi.
  assert (Hf : 0 < PI / 180) by lra.
  assert (Hrad : min_phi <= lat * (PI / 180) <= max_phi).
  { destruct Hlat as [H1 H2].
    apply (Rmult_le_compat_r _ _ _ (Rlt_le _ _ Hf)) in H1, H2.
    replace (min_phi * (180 / PI) * (PI / 180)) with min_phi in H1
      by (field; lra).
    replace (max_phi * (180 / PI) * (PI / 180)) with max_phi in H2
      by (field; lra).
    split; assumption. }
  assert (Hdeg : -90 < lat < 90).
  { pose proof (min_phi_inside ok). pose proof (max_phi_inside ok).
    split; nra. }
  split.
  - rewrite (project_fin ok this h lon lat Hst).
    rewrite (legacy_project_fin tx ty tk dims lon Hdeg).
    unfold clampedPhi. rewrite (clamp_inside Hrad).
    unfold fin2. cbn [fst snd].
    replace (lat * (PI / 180)) with (lat * PI / 180) by (field; lra).
    f_equal; f_equal. field.
  - rewrite (unproject_fin this h px py Hk Hst).
    rewrite (legacy_invert_fin tx ty dims px py Hk).
    unfold unprojectLat. rewrite (clamp_inside Hband).
    unfold fin2. cbn [fst snd]. f_equal; f_equal; field; lra.
Qed.

Lemma viewport_agrees_with_legacy_witness :
  let this := viewport0 (fin2 (800, 600)) in
  let h := heap1 (finT 10 20 (256 / PI) 1) in
  @Viewport.project spec_bounds this h (fin2 (5, 0)) false
  = Projection.project (finP 10 20 (256 / PI) []) (fin2 (5, 0))
  /\
  Viewport.unproject this h (fin2 (300, 20)) false
  = Projection.invert (finP 10 20 (256 / PI) []) (fin2 (300, 20)).
Proof.
  intros this h.
  assert (Hband : - PI <= (20 - 20) / (256 / PI) <= PI).
  { pose proof PI_RGT_0. unfold Rdiv. rewrite Rminus_diag, Rmult_0_l. lra. }
  assert (Hlat : @min_phi spec_bounds * (180 / PI) <= 0
                 <= @max_phi spec_bounds * (180 / PI)).
  { pose proof spec_zero_latitude_inside. lra. }
  apply (@viewport_agrees_with_legacy spec_bounds spec_bounds_ok this h
           10 20 (256 / PI) 1 [] 5 0 300 20 eq_refl default_scale_nonzero
           Hlat Hband).
Defined.

(* ================================================================= *)
(** * Edge cases of construction and symmetry of the visible region *)

Lemma or_default_cases f d :
  (exists v, or_default f (Fin d) = Fin v) \/
  or_default f (Fin d) = PInf \/ or_default f (Fin d) = NInf.
Proof.
  destruct f as [[v | | |] |]; simpl.
  - left. destruct (Req_dec_T v 0); eexists; reflexivity.
  - right. left. reflexivity.
  - right. right. reflexivity.
  - left. eexists; reflexivity.
  - left. eexists; reflexivity.
Qed.

(** X25: whatever the constructor is given as scale (absent, zero,
    negative, [NaN], an infinity), the scale it stores is finite and
    lies in [[MIN_K, MAX_K]]; the translation it stores is never
    [NaN]. *)
Theorem constructor_scale_always_valid `{B : Bounds} :
  BoundsOk B ->
  forall (tr : option Viewport.TransformLike) (d : option Vec2)
         (h : Viewport.heap),
    let '(this, h') := Viewport.constructor tr d h in
    (exists kk : R,
        Viewport.k (stored this h') = Fin kk /\ min_k <= kk <= max_k) /\
    Viewport.x (stored this h') <> NaN /\
    Viewport.y (stored this h') <> NaN.
Proof.
  intros ok tr d h.
  pose proof (constructor_stored tr d h) as Hst.
  destruct (Viewport.constructor tr d h) as [this h'].
  rewrite Hst. cbn [Viewport.x Viewport.y Viewport.k].
  pose proof (k_ordered ok) as Hord.
  split; [| split].
  - rewrite default_scale.
    destruct (or_default_cases (Viewport.opt_field tr Viewport.obj_k) (256 / PI))
      as [[v ->] | [-> | ->]]; unfold MIN_K, MAX_K.
    + rewrite numClamp_fin. eexists. split; [reflexivity |].
      apply (scale_clamped ok).
    + exists (Rmax min_k max_k). split; [reflexivity |].
      rewrite Rmax_right by assumption. lra.
    + exists min_k. split; [reflexivity |]. lra.
  - destruct (or_default_cases (Viewport.opt_field tr Viewport.obj_x) 0)
      as [[v ->] | [-> | ->]]; discriminate.
  - destruct (or_default_cases (Viewport.opt_field tr Viewport.obj_y) 0)
      as [[v ->] | [-> | ->]]; discriminate.
Qed.

Lemma constructor_scale_always_valid_witness :
  let '(this, h') :=
    @Viewport.constructor spec_bounds
      (Some {| Viewport.obj_x := Some NaN; Viewport.obj_y := None;
               Viewport.obj_k := Some PInf; Viewport.obj_r := None |})
      None (Heap.empty (finT 0 0 0 0)) in
  exists kk : R,
    Viewport.k (stored this h') = Fin kk /\
    @min_k spec_bounds <= kk <= @max_k spec_bounds.
Proof.
  apply (@constructor_scale_always_valid spec_bounds spec_bounds_ok
           (Some {| Viewport.obj_x := Some NaN; Viewport.obj_y := None;
                    Viewport.obj_k := Some PInf; Viewport.obj_r := None |})
           None (Heap.empty (finT 0 0 0 0))).
Defined.

(** X26: the visible region does not tell a rotation from the same
    rotation plus half a turn: two viewports with the same dimensions and
    rotations [a] and [a + pi], neither of them 0, have the same visible
    polygon and the same visible dimensions. *)
Theorem visible_region_half_turn :
  forall (this1 this2 : Viewport.t) (h1 h2 : Viewport.heap) (w h_ a : R),
    Viewport.r (stored this1 h1) = Fin a ->
    Viewport.r (stored this2 h2) = Fin (a + PI) ->
    Viewport._dimensions this1 = fin2 (w, h_) ->
    Viewport._dimensions this2 = fin2 (w, h_) ->
    a <> 0 -> a + PI <> 0 ->
    Viewport.visiblePolygon this1 h1 = Viewport.visiblePolygon this2 h2 /\
    Viewport.visibleDimensions this1 h1 = Viewport.visibleDimensions this2 h2.
Proof.
  intros this1 this2 h1 h2 w h_ a Hr1 Hr2 Hd1 Hd2 Ha Hb.
  rewrite (visiblePolygon_rotated this1 h1 Hr1 Hd1 Ha).
  rewrite (visiblePolygon_rotated this2 h2 Hr2 Hd2 Hb).
  rewrite (visibleDimensions_rotated this1 h1 Hr1 Hd1 Ha).
  rewrite (visibleDimensions_rotated this2 h2 Hr2 Hd2 Hb).
  rewrite neg_sin, neg_cos, !Rabs_Ropp.
  split; reflexivity.
Qed.

Lemma visible_region_half_turn_witness :
  let this := viewport0 (fin2 (800, 600)) in
  Viewport.visiblePolygon this (heap1 (finT 0 0 (256 / PI) 1))
  = Viewport.visiblePolygon this (heap1 (finT 0 0 (256 / PI) (1 + PI))) /\
  Viewport.visibleDimensions this (heap1 (finT 0 0 (256 / PI) 1))
  = Viewport.visibleDimensions this (heap1 (finT 0 0 (256 / PI) (1 + PI))).
Proof.
  intros this.
  assert (H1 : 1 <> 0) by lra.
  assert (H2 : 1 + PI <> 0) by (pose proof PI_RGT_0; lra).
  apply (@visible_region_half_turn this this
           (heap1 (finT 0 0 (256 / PI) 1))
           (heap1 (finT 0 0 (256 / PI) (1 + PI))) 800 600 1
           eq_refl eq_refl eq_refl eq_refl H1 H2).
Defined.
